(** * FriendSmasher::Math scalar primitives (Library/Math/math_op.h)

    A shallow embedding of the integer and single-precision helpers of
    [math_op.h], and the properties of them that the specification states.

    - [unsigned int] is a [Z] in [0, 2^32) with wrap-around written out;
    - [int] is a [Z] in [-2^31, 2^31), overflow modelled as wrap-around;
    - [float] is its 32-bit IEEE-754 storage pattern, read through
      [SpecFloat] at precision 24 and maximal exponent 128. *)

From Stdlib Require Import ZArith Lia Bool List.
From Stdlib Require Import Floats.SpecFloat.
Import ListNotations.
Local Open Scope Z_scope.

(** ** Machine integers *)

Module Word32.

Definition width : Z := 32.
Definition modulus : Z := 2 ^ width.
Definition half_modulus : Z := 2 ^ (width - 1).

(** Conversion to [unsigned int]. *)
Definition wrap (z : Z) : Z := z mod modulus.

(** Conversion to [int] (two's complement). *)
Definition swrap (z : Z) : Z := (z + half_modulus) mod modulus - half_modulus.

(** Octal literals of the source, most significant digit first. *)
Definition oct (ds : list Z) : Z := fold_left (fun a d => 8 * a + d) ds 0.

End Word32.

Import Word32.

(** ** Power-of-two helpers *)

(** The five shift-or steps shared by [NextPow2], [nLog2] and
    [HighestBitSet]. *)
Definition smear (x : Z) : Z :=
  let x := Z.lor x (Z.shiftr x 1) in
  let x := Z.lor x (Z.shiftr x 2) in
  let x := Z.lor x (Z.shiftr x 4) in
  let x := Z.lor x (Z.shiftr x 8) in
  let x := Z.lor x (Z.shiftr x 16) in
  x.

Definition NextPow2 (x : Z) : Z :=
  let x := wrap (x - 1) in
  let x := Z.lor x (Z.shiftr x 1) in
  let x := Z.lor x (Z.shiftr x 2) in
  let x := Z.lor x (Z.shiftr x 4) in
  let x := Z.lor x (Z.shiftr x 8) in
  let x := Z.lor x (Z.shiftr x 16) in
  wrap (x + 1).

(** The [while (x < n) x <<= 1;] loop of [PrevPow2].  [x] is an [int], [n]
    an [unsigned int]: the comparison converts [x] to unsigned, the shift
    wraps.  [None] when the fuel runs out before the loop exits. *)
Fixpoint PrevPow2_loop (fuel : nat) (x n : Z) : option Z :=
  match fuel with
  | O => None
  | S fuel' =>
      if wrap x <? n
      then PrevPow2_loop fuel' (swrap (Z.shiftl x 1)) n
      else Some x
  end.

(** Number of times the loop body runs, when the loop exits within [fuel]
    tests of its condition. *)
Fixpoint PrevPow2_iterations (fuel : nat) (x n : Z) : option nat :=
  match fuel with
  | O => None
  | S fuel' =>
      if wrap x <? n
      then option_map S (PrevPow2_iterations fuel' (swrap (Z.shiftl x 1)) n)
      else Some O
  end.

Definition PrevPow2 (fuel : nat) (n : Z) : option Z :=
  if n =? 0 then Some n
  else
    match PrevPow2_loop fuel 1 n with
    | Some x => Some (wrap (swrap (Z.shiftr x 1)))
    | None => None
    end.

(** ** Bit counting *)

Definition BitCount (u : Z) : Z :=
  let uCount :=
    wrap (wrap (u - Z.land (Z.shiftr u 1) (oct [3;3;3;3;3;3;3;3;3;3;3]))
          - Z.land (Z.shiftr u 2) (oct [1;1;1;1;1;1;1;1;1;1;1])) in
  swrap (Z.land (wrap (uCount + Z.shiftr uCount 3))
                (oct [3;0;7;0;7;0;7;0;7;0;7]) mod 63).

(** The [_MSC_VER] branch of [HighestBitSet]. *)
Definition HighestBitSet_msc (u : Z) : Z :=
  let x := u in
  let x := Z.lor x (Z.shiftr x 1) in
  let x := Z.lor x (Z.shiftr x 2) in
  let x := Z.lor x (Z.shiftr x 4) in
  let x := Z.lor x (Z.shiftr x 8) in
  let x := Z.lor x (Z.shiftr x 16) in
  swrap (31 - BitCount x).

(** [__builtin_clz]: the number of zero bits above the most significant set
    bit of a 32-bit value; the compiler leaves it undefined at 0. *)
Fixpoint clz_from (n : nat) (u : Z) : Z :=
  match n with
  | O => 0
  | S n' => if Z.testbit u (Z.of_nat n') then 0 else 1 + clz_from n' u
  end.

Definition builtin_clz (u : Z) : option Z :=
  if u =? 0 then None else Some (clz_from 32 u).

(** The [__GNUC__] branch of [HighestBitSet]. *)
Definition HighestBitSet_gnuc (u : Z) : option Z :=
  match builtin_clz u with
  | Some c => let v := wrap (31 - c) in Some (swrap v)
  | None => None
  end.

(** Reference notions the claims are stated against. *)

Definition is_pow2 (p : Z) : Prop := exists k, 0 <= k /\ p = 2 ^ k.

(** Number of set bits among the low [n] bits. *)
Fixpoint popcount (n : nat) (u : Z) : Z :=
  match n with
  | O => 0
  | S n' => Z.b2z (Z.odd u) + popcount n' (Z.div2 u)
  end.

(** ** Single-precision floats *)

Module F32.

Definition prec : Z := 24.
Definition emax : Z := 128.

(** A [float] is its 32-bit storage: sign (bit 31), biased exponent
    (bits 30..23), fraction (bits 22..0).  [to_bits] is what
    [reinterpret_cast<unsigned&>] reads. *)
Record float : Type := of_bits { to_bits : Z }.

Definition sign_field (b : Z) : bool := Z.testbit b 31.
Definition exponent_field (b : Z) : Z := Z.land (Z.shiftr b 23) 0xFF.
Definition fraction_field (b : Z) : Z := Z.land b 0x7FFFFF.

(** The number a storage pattern denotes. *)
Definition decode (b : Z) : spec_float :=
  let s := sign_field b in
  let e := exponent_field b in
  let m := fraction_field b in
  if e =? 0 then
    if m =? 0 then S754_zero s else S754_finite s (Z.to_pos m) (-149)
  else if e =? 0xFF then
    if m =? 0 then S754_infinity s else S754_nan
  else S754_finite s (Z.to_pos (m + 2 ^ 23)) (e - 150).

Definition sign_mask (s : bool) : Z := if s then 0x80000000 else 0.

(** The storage of a result; a NaN result is the default quiet NaN. *)
Definition encode (x : spec_float) : Z :=
  match x with
  | S754_zero s => sign_mask s
  | S754_infinity s => Z.lor (sign_mask s) 0x7F800000
  | S754_nan => 0x7FC00000
  | S754_finite s m e =>
      if Z.pos m <? 2 ^ 23
      then Z.lor (sign_mask s) (Z.pos m)
      else Z.lor (sign_mask s)
                 (Z.lor (Z.shiftl (e + 150) 23) (Z.pos m - 2 ^ 23))
  end.

Definition value (a : float) : spec_float := decode (to_bits a).
Definition round (x : spec_float) : float := of_bits (encode x).

Definition add (a b : float) : float := round (SFadd prec emax (value a) (value b)).
Definition sub (a b : float) : float := round (SFsub prec emax (value a) (value b)).
Definition div (a b : float) : float := round (SFdiv prec emax (value a) (value b)).

Definition SFgtb (x y : spec_float) : bool :=
  match SFcompare x y with
  | Some Gt => true
  | _ => false
  end.

Definition ltb (a b : float) : bool := SFltb (value a) (value b).
Definition gtb (a b : float) : bool := SFgtb (value a) (value b).
Definition leb (a b : float) : bool := SFleb (value a) (value b).
Definition geb (a b : float) : bool := SFleb (value b) (value a).

(** Conversion [int -> float], round to nearest even. *)
Definition of_int (n : Z) : float := round (binary_normalize prec emax n 0 false).

(** Conversion [float -> int]: truncation toward zero; undefined (here
    [None]) when the truncated value is not an [int], or on infinities
    and NaN. *)
Definition to_int (a : float) : option Z :=
  match value a with
  | S754_zero _ => Some 0
  | S754_finite s m e =>
      let t := cond_Zopp s (Z.shiftl (Z.pos m) e) in
      if (- half_modulus <=? t) && (t <? half_modulus) then Some t else None
  | _ => None
  end.

(** The literals [0.f] and [1.f]. *)
Definition zero : float := of_bits 0.
Definition one : float := of_bits 0x3F800000.

Definition is_finite (a : float) : bool :=
  match value a with
  | S754_zero _ | S754_finite _ _ _ => true
  | _ => false
  end.

Definition is_nan (a : float) : bool :=
  match value a with
  | S754_nan => true
  | _ => false
  end.

Definition mul (a b : float) : float := round (SFmul prec emax (value a) (value b)).
Definition sqrt (a : float) : float := round (SFsqrt prec emax (value a)).

(** The literal [0.5f]. *)
Definition half : float := of_bits 0x3F000000.

(** [floorf] of the C library: the largest integral value not above the
    argument; zeros, infinities and NaN are returned as they are. *)
Definition SFfloor (x : spec_float) : spec_float :=
  match x with
  | S754_finite s m e =>
      if 0 <=? e then x
      else
        let q := Z.shiftr (Z.pos m) (- e) in
        let exact := Z.shiftl q (- e) =? Z.pos m in
        if s
        then binary_normalize prec emax (- (if exact then q else q + 1)) 0 true
        else binary_normalize prec emax q 0 false
  | _ => x
  end.

Definition floor (a : float) : float := round (SFfloor (value a)).

End F32.

(** ** Scalar types of the templates *)

(** What [Sign<T>], [Clamp<T>] and [Normalize<T>] use of [T]. *)
Class Scalar (T : Type) := {
  lt : T -> T -> bool;
  gt : T -> T -> bool;
  minus : T -> T -> T;
  cast_int : Z -> T;
  to_float : T -> F32.float;
  of_float : F32.float -> option T
}.

#[export] Instance Scalar_float : Scalar F32.float := {
  lt := F32.ltb;
  gt := F32.gtb;
  minus := F32.sub;
  cast_int := F32.of_int;
  to_float := fun v => v;
  of_float := fun f => Some f
}.

#[export] Instance Scalar_int : Scalar Z := {
  lt := Z.ltb;
  gt := Z.gtb;
  minus := fun a b => swrap (a - b);
  cast_int := fun n => n;
  to_float := F32.of_int;
  of_float := F32.to_int
}.

(** ** Comparison, sign and range helpers *)

Definition approxf (f1 f2 epsilon : F32.float) : bool :=
  F32.gtb f1 (F32.sub f2 epsilon) && F32.ltb f1 (F32.add f2 epsilon).

(** The template [Sign<T>]. *)
Definition Sign {T} `{Scalar T} (k : T) : T :=
  if lt k (cast_int 0) then cast_int (-1) else cast_int 1.

(** The overload [Sign(float)]: the storage of [k] is read and rewritten
    as an [unsigned]. *)
Definition Sign_float (k : F32.float) : F32.float :=
  F32.of_bits (Z.lor (Z.land (F32.to_bits k) 0x80000000) 0x3f800000).

Definition Saturate (v : F32.float) : F32.float :=
  let v := if F32.gtb v F32.one then F32.one else v in
  let v := if F32.ltb v F32.zero then F32.zero else v in
  v.

(** Memory holding floats, for the overload taking a pointer. *)
Definition addr : Type := Z.
Definition memory : Type := addr -> F32.float.
Definition load (m : memory) (p : addr) : F32.float := m p.
Definition store (m : memory) (p : addr) (v : F32.float) : memory :=
  fun q => if q =? p then v else m q.

Definition Saturate_ptr (v : addr) (m : memory) : memory :=
  let m := store m v (if F32.gtb (load m v) F32.one then F32.one else load m v) in
  let m := store m v (if F32.ltb (load m v) F32.zero then F32.zero else load m v) in
  m.

Definition Clamp {T} `{Scalar T} (value min max : T) : T :=
  let '(min, max) := if gt min max then (max, min) else (min, max) in
  if lt value min then min
  else if lt max value then max
  else value.

Definition Normalize {T} `{Scalar T} (value min max : T) : option T :=
  if lt value min then Some min
  else if lt max value then Some max
  else
    let fRange := to_float (minus max min) in
    let fDelta := to_float (minus value min) in
    of_float (F32.div fDelta fRange).

(** ** Rounding *)

Definition RoundToNearest (nInput nNearest : Z) : option Z :=
  if (nNearest >? nInput) || (nNearest <=? 0) then Some nInput
  else
    let x := F32.of_int (Z.rem nInput nNearest) in
    if F32.ltb x (F32.of_int (Z.quot nNearest 2))
    then F32.to_int (F32.sub (F32.of_int nInput) x)
    else F32.to_int (F32.add (F32.of_int nInput) (F32.sub (F32.of_int nNearest) x)).

(** ** Further helpers of [math_op.h] *)

Definition nLog2 (x : Z) : Z :=
  let x := Z.lor x (Z.shiftr x 1) in
  let x := Z.lor x (Z.shiftr x 2) in
  let x := Z.lor x (Z.shiftr x 4) in
  let x := Z.lor x (Z.shiftr x 8) in
  let x := Z.lor x (Z.shiftr x 16) in
  let x := Z.shiftr x 1 in
  let x := wrap (x - Z.land (Z.shiftr x 1) 0x55555555) in
  let x := wrap (Z.land (Z.shiftr x 2) 0x33333333 + Z.land x 0x33333333) in
  let x := Z.land (wrap (Z.shiftr x 4 + x)) 0x0f0f0f0f in
  let x := wrap (x + Z.shiftr x 8) in
  let x := wrap (x + Z.shiftr x 16) in
  Z.land x 63.

(** The templates [Min<T>] and [Max<T>]. *)
Definition Min {T} `{Scalar T} (x y : T) : T := if lt x y then x else y.
Definition Max {T} `{Scalar T} (x y : T) : T := if gt x y then x else y.

Definition SinFromCos (cos : F32.float) : F32.float :=
  let sin := F32.sub F32.one (F32.mul cos cos) in
  if F32.leb sin F32.zero then F32.zero else F32.sqrt sin.

Definition CosFromSin (sin : F32.float) : F32.float := SinFromCos sin.

Definition frac (x : F32.float) : F32.float := F32.sub x (F32.floor x).

(** [Round]: the conversion to [int] is undefined (here [None]) outside
    the range of [int]. *)
Definition Round (t : F32.float) : option F32.float :=
  option_map F32.of_int (F32.to_int (F32.add t F32.half)).

(** ** Auxiliary notions of the proofs *)

(** The values the loop variable takes from 1 on: the 32 wrapped powers of
    two, then 0 for ever. *)
Definition doubling_orbit : list Z :=
  map (fun k => swrap (2 ^ Z.of_nat k)) (seq 0 32) ++ [0].

(** Bit [i] of [x] is set exactly when [y] has a set bit among the [w]
    positions from [i] upwards. *)
Definition window (y w x : Z) : Prop :=
  forall i, 0 <= i ->
    (Z.testbit x i = true <-> exists j, 0 <= j < w /\ Z.testbit y (i + j) = true).

(** Exhaustive checks over an initial segment of [Z]. *)
Definition below (n : nat) (P : Z -> bool) : bool :=
  forallb P (map Z.of_nat (seq 0 n)).

(** The two stages of [BitCount] without the conversions, over masks of
    any length: the per-octal-digit counts, and the sums of neighbouring
    digits. *)
Definition tally (m3 m1 u : Z) : Z :=
  u - Z.land (Z.shiftr u 1) m3 - Z.land (Z.shiftr u 2) m1.

Definition pairs (m7 c : Z) : Z := Z.land (c + Z.shiftr c 3) m7.

(** Everything needed of one 6-bit group, by enumeration. *)
Definition group_ok (lo : Z) : bool :=
  let a := tally 27 9 lo in
  (0 <=? a) && (a <=? lo) && (a <=? 27) && (a mod 8 <=? 3)
  && below 2 (fun r => Z.land (lo / 2 + 32 * r) 27 =? Z.land (lo / 2) 27)
  && below 4 (fun r => (Z.land (lo / 4 + 16 * r) 9 =? Z.land (lo / 4) 9)
                       && (a + a / 8 + 8 * r <? 64)
                       && (Z.land (a + a / 8 + 8 * r) 7 =? popcount 6 lo)).

(** What the two stages establish on [n]-bit inputs, for masks [m3], [m1]
    and [m7] of that length. *)
Definition counted (n : nat) (m3 m1 m7 : Z) : Prop :=
  forall u, 0 <= u < 2 ^ Z.of_nat n ->
    0 <= tally m3 m1 u <= u /\
    tally m3 m1 u mod 8 <= 3 /\
    0 <= pairs m7 (tally m3 m1 u) /\
    pairs m7 (tally m3 m1 u) mod 63 = popcount n u mod 63.

Definition top_ok (u : Z) : bool :=
  let c := tally 3 1 u in
  (0 <=? c) && (c <=? u) && (c mod 8 <=? 3) && (0 <=? pairs 3 c)
  && (pairs 3 c mod 63 =? popcount 2 u mod 63).

(** The counting stage of [nLog2], after the smear. *)
Definition nLog2_count (x : Z) : Z :=
  let x := Z.shiftr x 1 in
  let x := wrap (x - Z.land (Z.shiftr x 1) 0x55555555) in
  let x := wrap (Z.land (Z.shiftr x 2) 0x33333333 + Z.land x 0x33333333) in
  let x := Z.land (wrap (Z.shiftr x 4 + x)) 0x0f0f0f0f in
  let x := wrap (x + Z.shiftr x 8) in
  let x := wrap (x + Z.shiftr x 16) in
  Z.land x 63.

(** Exact arithmetic on floats that hold small integers.  [shl c n] is
    [n] followed by [c] zero bits, [digits n] the length of [n] in bits.
    [canon s n g] is the normal binary32 value of sign [s] and magnitude
    [n * 2^g], for [n] of at most 24 bits; [SFscaled z g] is [z * 2^g]. *)
Definition shl (c : nat) (n : positive) : positive := Nat.iter c xO n.

Definition digits (n : positive) : Z := Z.pos (digits2_pos n).

Definition canon (s : bool) (n : positive) (g : Z) : spec_float :=
  S754_finite s (shl (Z.to_nat (24 - digits n)) n) (g + digits n - 24).

Definition SFscaled (z g : Z) : spec_float :=
  match z with
  | Z0 => S754_zero false
  | Zpos n => canon false n g
  | Zneg n => canon true n g
  end.

Definition align_shift (a b : positive) : nat :=
  Z.to_nat (24 - Z.min (digits a) (digits b)).

Definition signed (s : bool) (n : positive) : Z := cond_Zopp s (Z.pos n).

(** The float [x] denotes exactly [z * 2^g]. *)
Definition holds (x : F32.float) (z g : Z) : Prop := F32.value x = SFscaled z g.

(** Rounding to nearest on every finite float.  [exact_value x] is the
    number [x] denotes, counted in units of [2^-149], the spacing of the
    smallest subnormals, so that every finite value is an integer; the
    infinities are placed at [2^128], above every finite value. *)
Definition exact_value (x : spec_float) : Z :=
  match x with
  | S754_zero _ => 0
  | S754_infinity s => cond_Zopp s (2 ^ 277)
  | S754_nan => 0
  | S754_finite s m e => cond_Zopp s (Z.pos m * 2 ^ (e + 149))
  end.

(** The values a storage can decode to, NaN apart. *)
Definition canonical (x : spec_float) : Prop :=
  match x with
  | S754_finite _ m e =>
      Z.pos m < 2 ^ 24 /\ -149 <= e <= 104 /\ (-149 < e -> 2 ^ 23 <= Z.pos m)
  | S754_nan => False
  | _ => True
  end.

(** The second half of [binary_round_aux]: the rounded mantissa is
    renormalised and checked for overflow. *)
Definition round_finish (s : bool) (m e : Z) : spec_float :=
  let '(mrs, e') := shr_fexp 24 128 m e loc_Exact in
  match shr_m mrs with
  | Z0 => S754_zero s
  | Z.pos p => if e' <=? 104 then S754_finite s p e' else S754_infinity s
  | Z.neg _ => S754_nan
  end.

(** [R] is [X] rounded down or up to a canonical value: no canonical value
    lies strictly between the two. *)
Definition faithful (X R : Z) : Prop :=
  forall c, canonical c ->
    (X <= exact_value c -> R <= exact_value c) /\
    (exact_value c <= X -> exact_value c <= R).

(** Zeros and finite non-zero values. *)
Definition finite_value (x : spec_float) : Prop :=
  match x with
  | S754_zero _ | S754_finite _ _ _ => True
  | _ => False
  end.

(** The number a float denotes, in units of [2^-149]: [units a - units b]
    is the exact difference of [a] and [b], without rounding. *)
Definition units (a : F32.float) : Z := exact_value (F32.value a).

(** One unit in the last place, in the same units: the distance from a
    finite value to the next one of the same exponent. *)
Definition ulp_value (x : spec_float) : Z :=
  match x with
  | S754_finite _ _ e => 2 ^ (e + 149)
  | _ => 1
  end.

Definition ulp_units (a : F32.float) : Z := ulp_value (F32.value a).

(** * Properties *)

(** ** Sample evaluations *)

Example NextPow2_samples :
  map NextPow2 [1; 2; 3; 5; 16; 17; 1023; 1024] = [1; 2; 4; 8; 16; 32; 1024; 1024].
Proof. reflexivity. Qed.

Example PrevPow2_samples :
  map (PrevPow2 40) [0; 1; 2; 3; 5; 16; 17; 1023; 1024]
  = map Some [0; 0; 1; 2; 4; 8; 16; 512; 512].
Proof. reflexivity. Qed.

Example BitCount_samples :
  map BitCount [0; 0xFFFFFFFF; 1; 0xF0F0; 0x80000000] = [0; 32; 1; 8; 1].
Proof. reflexivity. Qed.

Example HighestBitSet_samples :
  map HighestBitSet_msc [1; 0x80000000] = [30; -1] /\
  map HighestBitSet_gnuc [1; 0x80000000] = [Some 0; Some 31].
Proof. split; reflexivity. Qed.

Example F32_literals :
  F32.value F32.one = S754_finite false 8388608 (-23) /\
  F32.of_int 1 = F32.one /\ F32.of_int 0 = F32.zero /\
  F32.of_int (-1) = F32.of_bits 0xBF800000 /\
  F32.of_int 10 = F32.of_bits 0x41200000 /\
  F32.div (F32.of_int 1) (F32.of_int 2) = F32.of_bits 0x3F000000 /\
  F32.to_int (F32.of_bits 0x40F00000) = Some 7 /\
  F32.to_int (F32.of_bits 0xC0F00000) = Some (-7).
Proof. repeat split; reflexivity. Qed.

Example Normalize_samples :
  map (fun v => Normalize (F32.of_int v) (F32.of_int 0) (F32.of_int 10)) [5; -5; 15; 10; 0]
  = map Some [F32.of_bits 0x3F000000; F32.zero; F32.of_int 10; F32.one; F32.zero].
Proof. reflexivity. Qed.

Example Normalize_int_samples :
  map (fun v => Normalize v 0 10) [5; -5; 15; 10] = map Some [0; 0; 10; 1].
Proof. reflexivity. Qed.

Example RoundToNearest_samples :
  map (fun p => RoundToNearest (fst p) (snd p)) [(7, 5); (8, 5); (3, 10); (6, 5); (12, 4); (7, 4)]
  = map Some [10; 10; 3; 5; 12; 8].
Proof. reflexivity. Qed.

Example Sign_samples :
  map Sign_float (map F32.of_int [-3; 0; 3]) = map F32.of_int [-1; 1; 1] /\
  map Sign (map F32.of_int [-3; 0; 3]) = map F32.of_int [-1; 1; 1] /\
  Sign_float (F32.of_bits 0x80000000) = F32.of_int (-1) /\
  Sign (F32.of_bits 0x80000000) = F32.of_int 1.
Proof. repeat split; reflexivity. Qed.

Example approxf_samples :
  approxf F32.one F32.one (F32.of_bits 0x3A83126F) = true /\
  approxf (F32.of_int (2 ^ 25)) (F32.of_int (2 ^ 25)) F32.one = false.
Proof. split; reflexivity. Qed.

(** ** Comparisons on [spec_float] *)

Section Compare.

Lemma compare_cont_Eq_antisym (p q : positive) :
  Pos.compare_cont Eq q p = CompOpp (Pos.compare_cont Eq p q).
Proof. exact (Pos.compare_antisym p q). Qed.

Lemma SFcompare_antisym (x y : spec_float) :
  SFcompare y x = option_map CompOpp (SFcompare x y).
Proof.
  destruct x as [sx | sx | | sx mx ex], y as [sy | sy | | sy my ey];
    simpl; try reflexivity;
    try (destruct sx; reflexivity); try (destruct sy; reflexivity);
    try (destruct sx, sy; reflexivity).
  destruct sx, sy; simpl; try reflexivity;
    rewrite (Z.compare_antisym ex ey);
    destruct (ex ?= ey); simpl; try reflexivity;
    rewrite (compare_cont_Eq_antisym mx my);
    destruct (Pos.compare_cont Eq mx my); reflexivity.
Qed.

Lemma SFgtb_ltb (x y : spec_float) : F32.SFgtb x y = SFltb y x.
Proof.
  unfold F32.SFgtb, SFltb. rewrite (SFcompare_antisym x y).
  destruct (SFcompare x y) as [[ | | ] | ]; reflexivity.
Qed.

Lemma SFcompare_refl (x : spec_float) :
  SFcompare x x = Some Eq \/ SFcompare x x = None.
Proof.
  destruct x as [s | s | | s m e]; simpl; auto.
  - destruct s; auto.
  - left. destruct s; rewrite Z.compare_refl;
      change (Pos.compare_cont Eq m m) with (Pos.compare m m);
      rewrite Pos.compare_refl; reflexivity.
Qed.

Lemma SFltb_irrefl (x : spec_float) : SFltb x x = false.
Proof.
  unfold SFltb. destruct (SFcompare_refl x) as [E | E]; rewrite E; reflexivity.
Qed.

Lemma SFleb_not_gtb (x y : spec_float) : SFleb x y = true -> F32.SFgtb x y = false.
Proof.
  unfold SFleb, F32.SFgtb. destruct (SFcompare x y) as [[ | | ] | ]; easy.
Qed.

Lemma SFleb_not_ltb (x y : spec_float) : SFleb y x = true -> SFltb x y = false.
Proof.
  rewrite <- SFgtb_ltb. apply SFleb_not_gtb.
Qed.

(** Above [1.f] is not below [0.f]. *)
Lemma SFgtb_one_not_neg (x : spec_float) :
  F32.SFgtb x (F32.value F32.one) = true -> SFltb x (F32.value F32.zero) = false.
Proof.
  destruct x as [s | s | | s m e]; try reflexivity; destruct s; easy.
Qed.

End Compare.

Lemma F32_gtb_ltb (a b : F32.float) : F32.gtb a b = F32.ltb b a.
Proof. apply SFgtb_ltb. Qed.

Lemma F32_ltb_irrefl (a : F32.float) : F32.ltb a a = false.
Proof. apply SFltb_irrefl. Qed.

(** ** Saturate and Clamp *)

Lemma Saturate_Clamp (v : F32.float) : Saturate v = Clamp v F32.zero F32.one.
Proof.
  unfold Saturate, Clamp. cbn [gt lt Scalar_float].
  change (F32.gtb F32.zero F32.one) with false. cbv iota.
  rewrite <- (F32_gtb_ltb v F32.one).
  destruct (F32.gtb v F32.one) eqn:G.
  - change (F32.ltb F32.one F32.zero) with false.
    unfold F32.ltb. rewrite (SFgtb_one_not_neg _ G). reflexivity.
  - reflexivity.
Qed.

Lemma load_store_same (m : memory) (p : addr) (v : F32.float) :
  load (store m p v) p = v.
Proof. unfold load, store. rewrite Z.eqb_refl. reflexivity. Qed.

Lemma load_store_other (m : memory) (p q : addr) (v : F32.float) :
  q <> p -> load (store m p v) q = load m q.
Proof. intros N. unfold load, store. apply Z.eqb_neq in N. rewrite N. reflexivity. Qed.

Lemma Saturate_ptr_frame (m : memory) (p q : addr) :
  q <> p -> load (Saturate_ptr p m) q = load m q.
Proof.
  intros N. unfold Saturate_ptr. rewrite !load_store_other by exact N. reflexivity.
Qed.

(** C10: for every float [v] held at a location [p], the in-place overload
    leaves at [p] exactly what the pure [Saturate] returns on [v], and that
    value is [Clamp(v, 0.0f, 1.0f)]. *)
Theorem Saturate_overloads_agree (v : F32.float) (m : memory) (p : addr) :
  load (Saturate_ptr p (store m p v)) p = Saturate v /\
  Saturate v = Clamp v F32.zero F32.one /\
  load (Saturate_ptr p (store m p v)) p = Clamp v F32.zero F32.one.
Proof.
  assert (E : load (Saturate_ptr p (store m p v)) p = Saturate v).
  { unfold Saturate_ptr, Saturate. rewrite !load_store_same. reflexivity. }
  split; [exact E | split; [apply Saturate_Clamp | ]].
  rewrite E. apply Saturate_Clamp.
Qed.

(** ** approxf *)

(** The test is a strict window between the two computed bounds, and the
    bounds themselves fail it. *)
Lemma approxf_computed_window (a b eps : F32.float) :
  (approxf a b eps = true <->
     F32.ltb (F32.sub b eps) a = true /\ F32.ltb a (F32.add b eps) = true) /\
  approxf (F32.sub b eps) b eps = false /\
  approxf (F32.add b eps) b eps = false.
Proof.
  split; [unfold approxf; rewrite F32_gtb_ltb; apply andb_true_iff | ].
  split; [unfold approxf; rewrite F32_gtb_ltb, F32_ltb_irrefl; reflexivity | ].
  unfold approxf; rewrite F32_ltb_irrefl; apply andb_false_r.
Qed.

(** C6, as first stated, fails: at [f = 2^25] and [eps = 1] the rounded
    [f - eps] is [f] again, so [approxf f f eps] is false although [f] is
    finite and [eps > 0]. *)
Lemma approxf_not_reflexive :
  F32.is_finite (F32.of_int (2 ^ 25)) = true /\
  F32.gtb F32.one F32.zero = true /\
  F32.sub (F32.of_int (2 ^ 25)) F32.one = F32.of_int (2 ^ 25) /\
  approxf (F32.of_int (2 ^ 25)) (F32.of_int (2 ^ 25)) F32.one = false /\
  ~ (forall f eps, F32.gtb eps F32.zero = true -> approxf f f eps = true).
Proof.
  repeat split; try reflexivity.
  intros A. specialize (A (F32.of_int (2 ^ 25)) F32.one eq_refl). discriminate A.
Qed.

(** ** Normalize *)

(** C1: above the range [Normalize<float>] returns [max] itself: at
    (15, 0, 10) the result is 10.0, which is neither 1.0 nor within [0,1];
    below the range it returns [min].  With the integer arguments of the
    example the template is instantiated at [int] and the in-range quotient
    0.5 is truncated to 0. *)
Theorem Normalize_out_of_range_returns_bound :
  Normalize (F32.of_int 15) (F32.of_int 0) (F32.of_int 10) = Some (F32.of_int 10) /\
  F32.of_int 10 <> F32.one /\
  F32.gtb (F32.of_int 10) F32.one = true /\
  Normalize (F32.of_int (-5)) (F32.of_int 2) (F32.of_int 10) = Some (F32.of_int 2) /\
  Normalize (F32.of_int 5) (F32.of_int 0) (F32.of_int 10) = Some (F32.of_bits 0x3F000000) /\
  Normalize 15 0 10 = Some 10 /\
  Normalize 5 0 10 = Some 0.
Proof. repeat split; try reflexivity. discriminate. Qed.

(** ** RoundToNearest *)

(** C3: the half of [nNearest] is taken by integer division, so with
    [nNearest = 5] the remainder 2 is compared with 2, not with 2.5, and
    7 is rounded up to 10. *)
Theorem RoundToNearest_7_5 :
  RoundToNearest 7 5 = Some 10 /\
  Z.rem 7 5 = 2 /\ Z.quot 5 2 = 2 /\
  F32.ltb (F32.of_int (Z.rem 7 5)) (F32.of_int (Z.quot 5 2)) = false.
Proof. repeat split; reflexivity. Qed.

(** ** Sign *)

(** C4: on negative zero (storage 0x80000000) the float overload keeps the
    sign bit and returns -1.0 (0xBF800000), the template compares
    [-0.0 < 0] (false) and returns +1.0 (0x3F800000). *)
Theorem Sign_negative_zero :
  F32.value (F32.of_bits 0x80000000) = S754_zero true /\
  Sign_float (F32.of_bits 0x80000000) = F32.of_bits 0xBF800000 /\
  Sign (F32.of_bits 0x80000000) = F32.of_bits 0x3F800000 /\
  Sign_float (F32.of_bits 0x80000000) <> Sign (F32.of_bits 0x80000000).
Proof. repeat split; try reflexivity. discriminate. Qed.

(** ** HighestBitSet *)

(** C5: the [_MSC_VER] branch returns [31 - BitCount(smeared u)], which is
    30 at [u = 1] and -1 at [u = 0x80000000]; the [__GNUC__] branch returns
    0 and 31 there. *)
Theorem HighestBitSet_msc_samples :
  HighestBitSet_msc 1 = 30 /\
  HighestBitSet_msc 0x80000000 = -1 /\
  HighestBitSet_gnuc 1 = Some 0 /\
  HighestBitSet_gnuc 0x80000000 = Some 31.
Proof. repeat split; reflexivity. Qed.

(** ** PrevPow2 *)

(** C2: at an exact power of two the loop stops one doubling early and the
    final halving returns the power below: 1, 2, 16 and 1024 give 0, 1, 8
    and 512. *)
Theorem PrevPow2_at_exact_powers :
  map (PrevPow2 33) [0; 1; 2; 3; 5; 16; 17; 1023; 1024]
  = map Some [0; 0; 1; 2; 4; 8; 16; 512; 512].
Proof. reflexivity. Qed.

Lemma doubling_orbit_closed :
  forallb (fun x => (wrap x <=? 2 ^ 31)
                    && existsb (Z.eqb (swrap (Z.shiftl x 1))) doubling_orbit)
          doubling_orbit = true.
Proof. vm_compute. reflexivity. Qed.

Lemma doubling_orbit_step (x : Z) :
  In x doubling_orbit ->
  wrap x <= 2 ^ 31 /\ In (swrap (Z.shiftl x 1)) doubling_orbit.
Proof.
  intros I.
  pose proof (proj1 (forallb_forall _ _) doubling_orbit_closed x I) as C.
  apply andb_true_iff in C. destruct C as [B E].
  split; [apply Z.leb_le; exact B | ].
  apply existsb_exists in E. destruct E as [y [Iy Ey]].
  apply Z.eqb_eq in Ey. rewrite Ey. exact Iy.
Qed.

Lemma one_in_doubling_orbit : In 1 doubling_orbit.
Proof. unfold doubling_orbit. apply in_or_app. left. simpl. left. reflexivity. Qed.

(** Above [2^31] the loop condition never fails. *)
Lemma PrevPow2_loop_diverges (n : Z) (fuel : nat) :
  2 ^ 31 < n -> forall x, In x doubling_orbit -> PrevPow2_loop fuel x n = None.
Proof.
  intros Hn. induction fuel as [ | fuel IH]; intros x I; [reflexivity | ].
  destruct (doubling_orbit_step x I) as [B I'].
  simpl. replace (wrap x <? n) with true by (symmetry; apply Z.ltb_lt; lia).
  apply IH. exact I'.
Qed.

Lemma PrevPow2_diverges (n : Z) (fuel : nat) :
  2 ^ 31 < n -> PrevPow2 fuel n = None.
Proof.
  intros Hn. unfold PrevPow2.
  replace (n =? 0) with false by (symmetry; apply Z.eqb_neq; lia).
  rewrite (PrevPow2_loop_diverges n fuel Hn 1); [reflexivity | ].
  apply one_in_doubling_orbit.
Qed.

Lemma PrevPow2_iterations_diverges (n : Z) (fuel : nat) :
  2 ^ 31 < n -> forall x, In x doubling_orbit -> PrevPow2_iterations fuel x n = None.
Proof.
  intros Hn. induction fuel as [ | fuel IH]; intros x I; [reflexivity | ].
  destruct (doubling_orbit_step x I) as [B I'].
  cbn [PrevPow2_iterations].
  replace (wrap x <? n) with true by (symmetry; apply Z.ltb_lt; lia).
  rewrite (IH _ I'). reflexivity.
Qed.

(** C7: at [n = 0x80000001] the loop of [PrevPow2] does not exit, whatever
    the number of iterations allowed: after 32 doublings the loop variable
    is 0 and [0 < n] holds for ever. *)
Theorem PrevPow2_no_exit_above_2_31 (fuel : nat) :
  PrevPow2 fuel 0x80000001 = None /\
  PrevPow2_iterations fuel 1 0x80000001 = None.
Proof.
  split.
  - apply PrevPow2_diverges. lia.
  - apply PrevPow2_iterations_diverges; [lia | apply one_in_doubling_orbit].
Qed.

(** ** The bit smear *)

Section Smear.

Variable y : Z.

Lemma window_init : window y 1 y.
Proof.
  intros i Hi. split.
  - intros B. exists 0. rewrite Z.add_0_r. split; [lia | exact B].
  - intros [j [Hj B]]. replace (i + j) with i in B by lia. exact B.
Qed.

Lemma window_double (w x : Z) :
  0 <= w -> window y w x -> window y (w + w) (Z.lor x (Z.shiftr x w)).
Proof.
  intros Hw W i Hi.
  rewrite Z.lor_spec, Z.shiftr_spec, orb_true_iff by exact Hi.
  rewrite (W i Hi), (W (i + w)) by lia.
  split.
  - intros [[j [Hj B]] | [j [Hj B]]].
    + exists j. split; [lia | exact B].
    + exists (w + j). split; [lia | ].
      replace (i + (w + j)) with (i + w + j) by lia. exact B.
  - intros [j [Hj B]]. destruct (Z_lt_le_dec j w) as [L | G].
    + left. exists j. split; [lia | exact B].
    + right. exists (j - w). split; [lia | ].
      replace (i + w + (j - w)) with (i + j) by lia. exact B.
Qed.

Lemma smear_window : window y 32 (smear y).
Proof.
  unfold smear.
  apply (window_double 16); [lia | ].
  apply (window_double 8); [lia | ].
  apply (window_double 4); [lia | ].
  apply (window_double 2); [lia | ].
  apply (window_double 1); [lia | ].
  apply window_init.
Qed.

(** On a non-zero 32-bit value the smear sets every bit up to the
    highest set bit. *)
Lemma smear_ones : 0 < y < 2 ^ 32 -> smear y = Z.ones (Z.log2 y + 1).
Proof.
  intros Hy.
  assert (Hk : 0 <= Z.log2 y < 32).
  { split; [apply Z.log2_nonneg | apply Z.log2_lt_pow2; lia]. }
  apply Z.bits_inj'. intros i Hi.
  apply eq_iff_eq_true. rewrite (smear_window i Hi).
  split.
  - intros [j [Hj B]].
    apply Z.ones_spec_low.
    destruct (Z_lt_le_dec (Z.log2 y) (i + j)) as [L | G]; [ | lia].
    rewrite (Z.bits_above_log2 y (i + j)) in B by lia. discriminate B.
  - intros B.
    destruct (Z_lt_le_dec i (Z.log2 y + 1)) as [L | G].
    + exists (Z.log2 y - i). split; [lia | ].
      replace (i + (Z.log2 y - i)) with (Z.log2 y) by lia.
      apply Z.bit_log2. lia.
    + rewrite Z.ones_spec_high in B by lia. discriminate B.
Qed.

End Smear.

Lemma smear_pow2 (y : Z) : 0 < y < 2 ^ 32 -> smear y = 2 ^ (Z.log2 y + 1) - 1.
Proof.
  intros Hy. rewrite (smear_ones y Hy), Z.ones_equiv. lia.
Qed.

Lemma NextPow2_smear (x : Z) : NextPow2 x = wrap (smear (wrap (x - 1)) + 1).
Proof. reflexivity. Qed.

Lemma wrap_small (z : Z) : 0 <= z < 2 ^ 32 -> wrap z = z.
Proof. intros H. unfold wrap, modulus, width. apply Z.mod_small. exact H. Qed.

Lemma NextPow2_log2 (x : Z) :
  2 <= x <= 2 ^ 31 -> NextPow2 x = 2 ^ (Z.log2 (x - 1) + 1).
Proof.
  intros Hx. rewrite NextPow2_smear.
  rewrite (wrap_small (x - 1)) by lia.
  rewrite smear_pow2 by lia.
  assert (Hk : 0 <= Z.log2 (x - 1) < 31).
  { split; [apply Z.log2_nonneg | apply Z.log2_lt_pow2; lia]. }
  replace (2 ^ (Z.log2 (x - 1) + 1) - 1 + 1) with (2 ^ (Z.log2 (x - 1) + 1)) by lia.
  apply wrap_small. split; [apply Z.pow_nonneg; lia | ].
  apply Z.pow_lt_mono_r; lia.
Qed.

(** C8: on [1 <= x <= 2^31], [NextPow2 x] is a power of two, is at least
    [x], and no power of two at least [x] is smaller; [NextPow2 0] wraps to
    0; and the eight sample inputs give the stated results. *)
Theorem NextPow2_least_power_of_two (x : Z) (Hx : 1 <= x <= 2 ^ 31) :
  (is_pow2 (NextPow2 x) /\ x <= NextPow2 x /\
   forall q, is_pow2 q -> x <= q -> NextPow2 x <= q) /\
  NextPow2 0 = 0 /\
  smear (wrap (0 - 1)) = 0xFFFFFFFF /\
  map NextPow2 [1; 2; 3; 5; 16; 17; 1023; 1024] = [1; 2; 4; 8; 16; 32; 1024; 1024].
Proof.
  split; [ | repeat split; reflexivity].
  destruct (Z.eq_dec x 1) as [E | N].
  - subst x. change (NextPow2 1) with 1. repeat split.
    + exists 0. split; [lia | reflexivity].
    + lia.
    + intros q [k [Hk Eq]] _. subst q.
      change 1 with (2 ^ 0) at 1. apply Z.pow_le_mono_r; lia.
  - assert (H2 : 2 <= x <= 2 ^ 31) by lia.
    rewrite (NextPow2_log2 x H2).
    pose proof (Z.log2_nonneg (x - 1)) as Hk.
    pose proof (Z.log2_spec (x - 1) ltac:(lia)) as [Lo Hi].
    rewrite <- Z.add_1_r in Hi.
    repeat split.
    + exists (Z.log2 (x - 1) + 1). split; [lia | reflexivity].
    + lia.
    + intros q [k [Hk' Eq]] Hq. subst q.
      apply Z.pow_le_mono_r; [lia | ].
      destruct (Z_lt_le_dec (Z.log2 (x - 1)) k) as [L | G]; [lia | ].
      pose proof (Z.pow_le_mono_r 2 k (Z.log2 (x - 1)) ltac:(lia) G). lia.
Qed.

Lemma NextPow2_least_power_of_two_witness :
  1 <= 5 <= 2 ^ 31 /\ is_pow2 (NextPow2 5) /\ 5 <= NextPow2 5.
Proof.
  assert (H : 1 <= 5 <= 2 ^ 31) by lia.
  split; [exact H | ].
  split; apply (NextPow2_least_power_of_two 5 H).
Defined.

(** ** BitCount *)

Lemma below_spec (n : nat) (P : Z -> bool) :
  below n P = true -> forall z, 0 <= z < Z.of_nat n -> P z = true.
Proof.
  intros B z Hz. unfold below in B. rewrite forallb_forall in B. apply B.
  apply in_map_iff. exists (Z.to_nat z). split; [lia | ].
  apply in_seq. lia.
Qed.

Section Split.

Variable k : Z.
Hypothesis Hk : 0 <= k.

(** The bits of [a + 2^k * b] are those of [a] below [k] and those of
    [b] from [k] on. *)
Lemma testbit_split (a b i : Z) :
  0 <= a < 2 ^ k -> 0 <= i ->
  Z.testbit (a + 2 ^ k * b) i = if i <? k then Z.testbit a i else Z.testbit b (i - k).
Proof.
  intros Ha Hi. destruct (Z.ltb_spec i k) as [L | G].
  - rewrite <- (Z.mod_pow2_bits_low (a + 2 ^ k * b) k i) by exact L.
    rewrite (Z.mul_comm (2 ^ k) b), Z.mod_add, Z.mod_small by lia.
    reflexivity.
  - replace i with (i - k + k) at 1 by lia.
    rewrite <- Z.div_pow2_bits by lia.
    rewrite Z.add_comm, (Z.mul_comm (2 ^ k) b), Z.div_add_l, Z.div_small by lia.
    rewrite Z.add_0_r. reflexivity.
Qed.

Lemma land_below (a c : Z) : 0 <= a < 2 ^ k -> 0 <= Z.land a c < 2 ^ k.
Proof.
  intros Ha.
  assert (E : Z.land a c = Z.land a c mod 2 ^ k).
  { rewrite <- (Z.land_ones (Z.land a c) k) by exact Hk.
    rewrite <- Z.land_assoc, (Z.land_comm c), Z.land_assoc.
    rewrite (Z.land_ones a k) by exact Hk.
    rewrite Z.mod_small by exact Ha. reflexivity. }
  rewrite E. apply Z.mod_pos_bound. lia.
Qed.

Lemma land_split (a b c d : Z) :
  0 <= a < 2 ^ k -> 0 <= c < 2 ^ k ->
  Z.land (a + 2 ^ k * b) (c + 2 ^ k * d) = Z.land a c + 2 ^ k * Z.land b d.
Proof.
  intros Ha Hc. apply Z.bits_inj'. intros i Hi.
  rewrite Z.land_spec.
  rewrite !testbit_split by (try apply land_below; assumption).
  destruct (i <? k); rewrite Z.land_spec; reflexivity.
Qed.

End Split.

Lemma land_split64 (a b c d : Z) :
  0 <= a < 64 -> 0 <= c < 64 ->
  Z.land (a + 64 * b) (c + 64 * d) = Z.land a c + 64 * Z.land b d.
Proof. intros Ha Hc. apply (land_split 6); [lia | exact Ha | exact Hc]. Qed.

Lemma groups_ok : below 64 group_ok = true.
Proof. vm_compute. reflexivity. Qed.

Section Group.

Variable lo : Z.
Hypothesis Hlo : 0 <= lo < 64.

Lemma group_checked : group_ok lo = true.
Proof. exact (below_spec 64 group_ok groups_ok lo Hlo). Qed.

Lemma group_tally : 0 <= tally 27 9 lo <= lo /\ tally 27 9 lo <= 27 /\ tally 27 9 lo mod 8 <= 3.
Proof.
  pose proof group_checked as H. unfold group_ok in H.
  rewrite !andb_true_iff in H. destruct H as [[[[[A B] C] D] _] _].
  apply Z.leb_le in A, B, C, D. lia.
Qed.

Lemma group_shift1 (r : Z) :
  0 <= r < 2 -> Z.land (lo / 2 + 32 * r) 27 = Z.land (lo / 2) 27.
Proof.
  intros Hr. pose proof group_checked as H. unfold group_ok in H.
  rewrite !andb_true_iff in H. destruct H as [[_ H] _].
  apply Z.eqb_eq. exact (below_spec 2 _ H r Hr).
Qed.

Lemma group_shift2 (r : Z) :
  0 <= r < 4 ->
  Z.land (lo / 4 + 16 * r) 9 = Z.land (lo / 4) 9 /\
  tally 27 9 lo + tally 27 9 lo / 8 + 8 * r < 64 /\
  Z.land (tally 27 9 lo + tally 27 9 lo / 8 + 8 * r) 7 = popcount 6 lo.
Proof.
  intros Hr. pose proof group_checked as H. unfold group_ok in H.
  rewrite !andb_true_iff in H. destruct H as [_ H].
  pose proof (below_spec 4 _ H r Hr) as H'. cbv beta in H'.
  rewrite !andb_true_iff in H'. destruct H' as [[A B] C].
  apply Z.eqb_eq in A, C. apply Z.ltb_lt in B. auto.
Qed.

End Group.

Lemma tally_split (lo hi m3 m1 : Z) :
  0 <= lo < 64 -> 0 <= hi ->
  tally (27 + 64 * m3) (9 + 64 * m1) (lo + 64 * hi)
  = tally 27 9 lo + 64 * tally m3 m1 hi.
Proof.
  intros Hlo Hhi. unfold tally.
  rewrite !Z.shiftr_div_pow2 by lia. change (2 ^ 1) with 2. change (2 ^ 2) with 4.
  replace ((lo + 64 * hi) / 2) with (lo / 2 + 32 * (hi mod 2) + 64 * (hi / 2))
    by (Z.div_mod_to_equations; lia).
  replace ((lo + 64 * hi) / 4) with (lo / 4 + 16 * (hi mod 4) + 64 * (hi / 4))
    by (Z.div_mod_to_equations; lia).
  rewrite !land_split64 by (Z.div_mod_to_equations; lia).
  rewrite (group_shift1 lo Hlo) by (Z.div_mod_to_equations; lia).
  rewrite (proj1 (group_shift2 lo Hlo (hi mod 4) ltac:(Z.div_mod_to_equations; lia))).
  lia.
Qed.

Lemma pairs_split (lo h m7 : Z) :
  0 <= lo < 64 -> 0 <= h -> h mod 8 <= 3 ->
  pairs (7 + 64 * m7) (tally 27 9 lo + 64 * h) = popcount 6 lo + 64 * pairs m7 h.
Proof.
  intros Hlo Hh Hd. unfold pairs.
  destruct (group_tally lo Hlo) as [Ha [Ha' _]].
  assert (Hr : 0 <= h mod 8 < 4) by (Z.div_mod_to_equations; lia).
  destruct (group_shift2 lo Hlo (h mod 8) Hr) as [_ [Hx Hp]].
  rewrite !Z.shiftr_div_pow2 by lia. change (2 ^ 3) with 8.
  replace (tally 27 9 lo + 64 * h + (tally 27 9 lo + 64 * h) / 8)
    with (tally 27 9 lo + tally 27 9 lo / 8 + 8 * (h mod 8) + 64 * (h + h / 8))
    by (Z.div_mod_to_equations; lia).
  rewrite land_split64 by (Z.div_mod_to_equations; lia).
  rewrite Hp. reflexivity.
Qed.

Lemma popcount_S (n : nat) (u : Z) :
  popcount (S n) u = u mod 2 + popcount n (u / 2).
Proof.
  cbn [popcount]. rewrite <- Z.bit0_odd, Z.bit0_mod, Z.div2_div. reflexivity.
Qed.

Lemma popcount_bounds (n : nat) (u : Z) : 0 <= popcount n u <= Z.of_nat n.
Proof.
  revert u. induction n as [ | n IH]; intros u; [simpl; lia | ].
  rewrite popcount_S. specialize (IH (u / 2)).
  assert (0 <= u mod 2 < 2) by (apply Z.mod_pos_bound; lia). lia.
Qed.

Lemma popcount_split6 (n : nat) (u : Z) :
  popcount (6 + n) u = popcount 6 (u mod 64) + popcount n (u / 64).
Proof.
  change (6 + n)%nat with (S (S (S (S (S (S n)))))).
  rewrite !popcount_S. cbn [popcount].
  replace (u / 2 / 2 / 2 / 2 / 2 / 2) with (u / 64) by (Z.div_mod_to_equations; lia).
  Z.div_mod_to_equations. lia.
Qed.

(** The two bits above the five 6-bit groups. *)
Lemma counted_top : counted 2 3 1 3.
Proof.
  assert (T : below 4 top_ok = true) by (vm_compute; reflexivity).
  intros u Hu. pose proof (below_spec 4 top_ok T u Hu) as H.
  unfold top_ok in H. rewrite !andb_true_iff in H.
  destruct H as [[[[A B] C] D] E].
  apply Z.leb_le in A, B, C, D. apply Z.eqb_eq in E. auto.
Qed.

(** One more 6-bit group below. *)
Lemma counted_group (n : nat) (m3 m1 m7 : Z) :
  counted n m3 m1 m7 ->
  counted (6 + n) (27 + 64 * m3) (9 + 64 * m1) (7 + 64 * m7).
Proof.
  intros IH u Hu.
  assert (P : 0 < 2 ^ Z.of_nat n) by (apply Z.pow_pos_nonneg; lia).
  replace (2 ^ Z.of_nat (6 + n)) with (64 * 2 ^ Z.of_nat n) in Hu
    by (rewrite Nat2Z.inj_add, Z.pow_add_r by lia; reflexivity).
  assert (Hlo : 0 <= u mod 64 < 64) by (apply Z.mod_pos_bound; lia).
  assert (Hhi : 0 <= u / 64 < 2 ^ Z.of_nat n).
  { split; [apply Z.div_pos; lia | apply Z.div_lt_upper_bound; lia]. }
  rewrite popcount_split6.
  rewrite (Z.div_mod u 64) at 1 2 3 4 5 6 by lia.
  rewrite (Z.add_comm (64 * (u / 64))).
  rewrite tally_split by lia.
  destruct (IH (u / 64) Hhi) as [Hc [Hd [Hp Hm]]].
  destruct (group_tally (u mod 64) Hlo) as [Ha [Ha' Ha8]].
  rewrite pairs_split by lia.
  pose proof (popcount_bounds 6 (u mod 64)) as Hb.
  repeat split; try lia.
  - Z.div_mod_to_equations. lia.
  - Z.div_mod_to_equations. lia.
Qed.

Lemma counted_32 :
  counted 32 (oct [3;3;3;3;3;3;3;3;3;3;3]) (oct [1;1;1;1;1;1;1;1;1;1;1])
             (oct [3;0;7;0;7;0;7;0;7;0;7]).
Proof.
  exact (counted_group _ _ _ _ (counted_group _ _ _ _ (counted_group _ _ _ _
          (counted_group _ _ _ _ (counted_group _ _ _ _ counted_top))))).
Qed.

Lemma wrap_sub_l (a b : Z) : wrap (wrap a - b) = wrap (a - b).
Proof. unfold wrap. apply Zminus_mod_idemp_l. Qed.

Lemma land_wrap (t m : Z) : 0 <= m < 2 ^ 32 -> Z.land (wrap t) m = Z.land t m.
Proof.
  intros Hm. unfold wrap, modulus, width.
  rewrite <- Z.land_ones, <- Z.land_assoc by lia.
  rewrite (Z.land_comm (Z.ones 32) m), Z.land_ones, Z.mod_small by lia.
  reflexivity.
Qed.

Lemma swrap_small (z : Z) : - 2 ^ 31 <= z < 2 ^ 31 -> swrap z = z.
Proof.
  intros H. unfold swrap, modulus, half_modulus, width.
  change (32 - 1) with 31. rewrite Z.mod_small; lia.
Qed.

Lemma BitCount_stages (u : Z) :
  0 <= u < 2 ^ 32 ->
  BitCount u
  = swrap (pairs (oct [3;0;7;0;7;0;7;0;7;0;7])
                 (tally (oct [3;3;3;3;3;3;3;3;3;3;3]) (oct [1;1;1;1;1;1;1;1;1;1;1]) u)
           mod 63).
Proof.
  intros Hu. unfold BitCount. cbv zeta. rewrite wrap_sub_l.
  fold (tally (oct [3;3;3;3;3;3;3;3;3;3;3]) (oct [1;1;1;1;1;1;1;1;1;1;1]) u).
  destruct (counted_32 u Hu) as [Hc _].
  rewrite (wrap_small (tally _ _ u)) by lia.
  rewrite land_wrap by (vm_compute; split; [discriminate | reflexivity]).
  reflexivity.
Qed.

Lemma BitCount_popcount (u : Z) : 0 <= u < 2 ^ 32 -> BitCount u = popcount 32 u.
Proof.
  intros Hu. rewrite (BitCount_stages u Hu).
  destruct (counted_32 u Hu) as [_ [_ [_ Hm]]]. rewrite Hm.
  pose proof (popcount_bounds 32 u) as Hb.
  rewrite Z.mod_small by lia. apply swrap_small. lia.
Qed.

(** C9: on every 32-bit value [BitCount] is the number of set bits; it is
    0 at 0, 32 at 0xFFFFFFFF and 1 at 1. *)
Theorem BitCount_exact (u : Z) (Hu : 0 <= u < 2 ^ 32) :
  BitCount u = popcount 32 u /\
  BitCount 0 = 0 /\ BitCount 0xFFFFFFFF = 32 /\ BitCount 1 = 1.
Proof.
  split; [apply BitCount_popcount; exact Hu | repeat split; reflexivity].
Qed.

Lemma BitCount_exact_witness :
  0 <= 0xF0F0 < 2 ^ 32 /\ BitCount 0xF0F0 = popcount 32 0xF0F0.
Proof.
  assert (H : 0 <= 0xF0F0 < 2 ^ 32) by lia.
  split; [exact H | apply (BitCount_exact 0xF0F0 H)].
Defined.

(** [popcount] counts the set bits: it is the sum of the bits. *)
Lemma popcount_testbit (n : nat) (u : Z) :
  popcount n u
  = fold_right Z.add 0 (map (fun i => Z.b2z (Z.testbit u (Z.of_nat i))) (seq 0 n)).
Proof.
  revert u. induction n as [ | n IH]; intros u; [reflexivity | ].
  cbn [popcount seq map fold_right]. rewrite <- Z.bit0_odd.
  f_equal. rewrite IH, <- seq_shift, map_map.
  f_equal. apply map_ext. intros i.
  rewrite Z.div2_spec, Z.shiftr_spec by lia.
  do 2 f_equal. lia.
Qed.

(** ** HighestBitSet on every non-zero input *)

Lemma msc_on_ones :
  below 32 (fun k => swrap (31 - BitCount (Z.ones (k + 1))) =? 30 - k) = true.
Proof. vm_compute. reflexivity. Qed.

(** The [_MSC_VER] branch is off by a reflection: it returns
    [30 - log2 u], not [log2 u]. *)
Lemma HighestBitSet_msc_log2 (u : Z) :
  0 < u < 2 ^ 32 -> HighestBitSet_msc u = 30 - Z.log2 u.
Proof.
  intros Hu.
  change (HighestBitSet_msc u) with (swrap (31 - BitCount (smear u))).
  rewrite (smear_ones u Hu).
  assert (Hk : 0 <= Z.log2 u < 32).
  { split; [apply Z.log2_nonneg | apply Z.log2_lt_pow2; lia]. }
  apply Z.eqb_eq. exact (below_spec 32 _ msc_on_ones (Z.log2 u) Hk).
Qed.

Lemma clz_from_log2 (n : nat) (u : Z) :
  0 < u < 2 ^ Z.of_nat n -> clz_from n u = Z.of_nat n - 1 - Z.log2 u.
Proof.
  induction n as [ | n IH]; intros Hu; [simpl in Hu; lia | ].
  rewrite Nat2Z.inj_succ, Z.pow_succ_r in Hu by lia.
  cbn [clz_from]. destruct (Z.testbit u (Z.of_nat n)) eqn:B.
  - assert (L : 2 ^ Z.of_nat n <= u).
    { destruct (Z_lt_le_dec u (2 ^ Z.of_nat n)) as [L | G]; [ | exact G].
      rewrite Z.bits_above_log2 in B; [discriminate B | lia | ].
      apply Z.log2_lt_pow2; lia. }
    rewrite (Z.log2_unique u (Z.of_nat n)); [lia | lia | ].
    rewrite Z.pow_succ_r by lia. lia.
  - assert (L : u < 2 ^ Z.of_nat n).
    { destruct (Z_lt_le_dec u (2 ^ Z.of_nat n)) as [L | G]; [exact L | ].
      assert (E : Z.log2 u = Z.of_nat n).
      { apply Z.log2_unique; [lia | ]. rewrite Z.pow_succ_r by lia. lia. }
      rewrite <- E, Z.bit_log2 in B by lia. discriminate B. }
    rewrite IH by lia. lia.
Qed.

(** The [__GNUC__] branch returns the index of the highest set bit. *)
Lemma HighestBitSet_gnuc_log2 (u : Z) :
  0 < u < 2 ^ 32 -> HighestBitSet_gnuc u = Some (Z.log2 u).
Proof.
  intros Hu. unfold HighestBitSet_gnuc, builtin_clz.
  replace (u =? 0) with false by (symmetry; apply Z.eqb_neq; lia).
  rewrite (clz_from_log2 32 u) by exact Hu.
  assert (Hk : 0 <= Z.log2 u < 32).
  { split; [apply Z.log2_nonneg | apply Z.log2_lt_pow2; lia]. }
  cbv zeta. f_equal.
  rewrite wrap_small by (change (Z.of_nat 32) with 32; lia).
  rewrite swrap_small by (change (Z.of_nat 32) with 32; lia).
  change (Z.of_nat 32) with 32. lia.
Qed.

(** ** PrevPow2 below 2^30 *)

Lemma pow2_small (k : Z) : 0 <= k <= 30 -> 0 < 2 ^ k <= 2 ^ 30.
Proof.
  intros Hk. split; [apply Z.pow_pos_nonneg; lia | apply Z.pow_le_mono_r; lia].
Qed.

Section PrevPow2Loop.

Variables (n K : Z).
Hypothesis HK : 1 <= K <= 30.
Hypothesis Hn : 2 ^ (K - 1) < n <= 2 ^ K.

Lemma PrevPow2_loop_exit (fuel : nat) :
forall k, 0 <= k <= K -> K - k + 1 <= Z.of_nat fuel ->
          PrevPow2_loop fuel (2 ^ k) n = Some (2 ^ K).
Proof.
induction fuel as [ | fuel IH]; intros k Hk Hf; [lia | ].
pose proof (pow2_small k ltac:(lia)) as Pk.
cbn [PrevPow2_loop]. rewrite (wrap_small (2 ^ k)) by lia.
destruct (Z.ltb_spec (2 ^ k) n) as [L | G].
- assert (k < K).
  { destruct (Z_lt_le_dec k K) as [L' | G']; [exact L' | ].
    replace k with K in L by lia. lia. }
  rewrite Z.shiftl_mul_pow2 by lia. change (2 ^ 1) with 2.
  replace (2 ^ k * 2) with (2 ^ (k + 1)) by (rewrite Z.pow_add_r by lia; lia).
  pose proof (pow2_small (k + 1) ltac:(lia)) as Pk'.
  rewrite swrap_small by lia.
  apply IH; lia.
- destruct (Z_lt_le_dec k K) as [L' | G'].
  + pose proof (Z.pow_le_mono_r 2 k (K - 1) ltac:(lia) ltac:(lia)). lia.
  + replace k with K by lia. reflexivity.
Qed.

End PrevPow2Loop.

(** On [2 <= n <= 2^30] the loop exits and [PrevPow2] returns the largest
    power of two strictly below [n]. *)
Lemma PrevPow2_strictly_below (n : Z) (fuel : nat) :
  2 <= n <= 2 ^ 30 -> (32 <= fuel)%nat ->
  PrevPow2 fuel n = Some (2 ^ Z.log2 (n - 1)).
Proof.
  intros Hn Hf.
  pose proof (Z.log2_nonneg (n - 1)) as Hk.
  pose proof (Z.log2_spec (n - 1) ltac:(lia)) as [Lo Hi].
  assert (Hk' : Z.log2 (n - 1) < 30) by (apply Z.log2_lt_pow2; lia).
  rewrite <- Z.add_1_r in Hi.
  unfold PrevPow2.
  replace (n =? 0) with false by (symmetry; apply Z.eqb_neq; lia).
  change 1 with (2 ^ 0) at 1.
  rewrite (PrevPow2_loop_exit n (Z.log2 (n - 1) + 1)); try lia.
  - pose proof (pow2_small (Z.log2 (n - 1)) ltac:(lia)) as P.
    rewrite Z.shiftr_div_pow2 by lia. change (2 ^ 1) with 2.
    replace (2 ^ (Z.log2 (n - 1) + 1) / 2) with (2 ^ Z.log2 (n - 1)).
    + rewrite swrap_small, wrap_small by lia. reflexivity.
    + rewrite Z.pow_add_r by lia. change (2 ^ 1) with 2.
      rewrite Z.div_mul by lia. reflexivity.
  - replace (Z.log2 (n - 1) + 1 - 1) with (Z.log2 (n - 1)) by lia. lia.
Qed.

(** ** PrevPow2 up to 2^31: the loop exits *)

Lemma wrap_swrap (z : Z) : wrap (swrap z) = wrap z.
Proof.
  unfold wrap, swrap. rewrite Zminus_mod_idemp_l. f_equal. ring.
Qed.

Lemma PrevPow2_iterations_exit (n : Z) (fuel : nat) :
  n <= 2 ^ 31 ->
  forall k, 0 <= k <= 31 -> 32 - k <= Z.of_nat fuel ->
    exists j, Z.of_nat j <= 31 - k /\
              PrevPow2_iterations fuel (swrap (2 ^ k)) n = Some j.
Proof.
  intros Hn. induction fuel as [ | fuel IH]; intros k Hk Hf; [lia | ].
  assert (Pk : 0 < 2 ^ k <= 2 ^ 31).
  { split; [apply Z.pow_pos_nonneg; lia | apply Z.pow_le_mono_r; lia]. }
  cbn [PrevPow2_iterations]. rewrite wrap_swrap, wrap_small by lia.
  destruct (Z.ltb_spec (2 ^ k) n) as [L | G].
  - assert (Hk' : k < 31).
    { destruct (Z_lt_le_dec k 31) as [L' | G']; [exact L' | ].
      replace k with 31 in L by lia. lia. }
    assert (Pk' : 2 ^ k < 2 ^ 31) by (apply Z.pow_lt_mono_r; lia).
    rewrite (swrap_small (2 ^ k)) by lia.
    rewrite Z.shiftl_mul_pow2 by lia. change (2 ^ 1) with 2.
    replace (2 ^ k * 2) with (2 ^ (k + 1)) by (rewrite Z.pow_add_r by lia; lia).
    destruct (IH (k + 1)) as [j [Hj E]]; [lia | lia | ].
    rewrite E. exists (S j). split; [lia | reflexivity].
  - exists O. split; [lia | reflexivity].
Qed.

(** For [n <= 2^31] the loop body runs at most 31 times. *)
Lemma PrevPow2_iterations_bounded (n : Z) :
  n <= 2 ^ 31 ->
  exists j, (j <= 31)%nat /\ PrevPow2_iterations 32 1 n = Some j.
Proof.
  intros Hn.
  destruct (PrevPow2_iterations_exit n 32 Hn 0) as [j [Hj E]]; [lia | lia | ].
  exists j. split; [lia | exact E].
Qed.

(** ** Sign on every storage pattern *)

Lemma high_bit_split (b : Z) :
  0 <= b < 2 ^ 32 ->
  Z.land b 0x80000000 = (if Z.testbit b 31 then 0x80000000 else 0).
Proof.
  intros Hb.
  assert (Hlo : 0 <= b mod 2 ^ 31 < 2 ^ 31) by (apply Z.mod_pos_bound; lia).
  assert (Hhi : 0 <= b / 2 ^ 31 < 2).
  { split; [apply Z.div_pos; lia | apply Z.div_lt_upper_bound; lia]. }
  pose proof (Z.div_mod b (2 ^ 31) ltac:(lia)) as E.
  rewrite Z.add_comm in E. rewrite E.
  rewrite (testbit_split 31) by lia. change (31 <? 31) with false. cbv iota.
  change 0x80000000 with (0 + 2 ^ 31 * 1) at 1.
  rewrite (land_split 31) by lia.
  assert (C : b / 2 ^ 31 = 0 \/ b / 2 ^ 31 = 1) by lia.
  rewrite Z.land_0_r.
  destruct C as [C | C]; rewrite C; reflexivity.
Qed.

Lemma Sign_float_sign_bit (b : Z) :
  0 <= b < 2 ^ 32 ->
  Sign_float (F32.of_bits b)
  = if Z.testbit b 31 then F32.of_bits 0xBF800000 else F32.of_bits 0x3F800000.
Proof.
  intros Hb. unfold Sign_float. cbn [F32.to_bits].
  rewrite (high_bit_split b Hb). destruct (Z.testbit b 31); reflexivity.
Qed.

Lemma Sign_template_compare (k : F32.float) :
  Sign k
  = if SFltb (F32.value k) (S754_zero false)
    then F32.of_bits 0xBF800000 else F32.of_bits 0x3F800000.
Proof. reflexivity. Qed.

(** X11: on every 32-bit storage that denotes neither negative zero nor
    a NaN, the overload [Sign(float)] and the template [Sign<float>] return
    the same storage. *)
Lemma Sign_agree (b : Z) :
  0 <= b < 2 ^ 32 ->
  F32.decode b <> S754_zero true -> F32.decode b <> S754_nan ->
  Sign_float (F32.of_bits b) = Sign (F32.of_bits b).
Proof.
  intros Hb Hz Hnan.
  rewrite (Sign_float_sign_bit b Hb), Sign_template_compare.
  unfold F32.value. cbn [F32.to_bits].
  unfold F32.decode, F32.sign_field in *.
  destruct (F32.exponent_field b =? 0);
    [ | destruct (F32.exponent_field b =? 255)];
    destruct (F32.fraction_field b =? 0);
    destruct (Z.testbit b 31); try reflexivity; congruence.
Qed.

(** * Further properties *)

(** ** nLog2 and the highest set bit *)

Lemma nLog2_on_ones :
  below 32 (fun k => nLog2_count (Z.ones (k + 1)) =? k) = true.
Proof. vm_compute. reflexivity. Qed.

Lemma nLog2_smear (x : Z) : nLog2 x = nLog2_count (smear x).
Proof. cbv beta zeta delta [nLog2 nLog2_count smear]. reflexivity. Qed.

Lemma log2_32 (x : Z) : 0 < x < 2 ^ 32 -> 0 <= Z.log2 x < 32.
Proof.
  intros Hx. split; [apply Z.log2_nonneg | apply Z.log2_lt_pow2; lia].
Qed.

Lemma nLog2_log2 (x : Z) : 0 <= x < 2 ^ 32 -> nLog2 x = Z.log2 x.
Proof.
  intros Hx. destruct (Z.eq_dec x 0) as [Z0 | NZ]; [subst x; vm_compute; reflexivity | ].
  rewrite nLog2_smear, smear_ones by lia.
  apply Z.eqb_eq.
  exact (below_spec 32 _ nLog2_on_ones (Z.log2 x) (log2_32 x ltac:(lia))).
Qed.

(** X1: on every 32-bit value [nLog2 x] is the floor of the base-2
    logarithm of [x] (0 at [x = 0]), a number between 0 and 31 with
    [2^(nLog2 x) <= x < 2^(nLog2 x + 1)] when [x] is not 0. *)
Theorem nLog2_floor_log2 (x : Z) (Hx : 0 <= x < 2 ^ 32) :
  nLog2 x = Z.log2 x /\
  0 <= nLog2 x <= 31 /\
  (0 < x -> 2 ^ nLog2 x <= x < 2 ^ (nLog2 x + 1)).
Proof.
  rewrite (nLog2_log2 x Hx). split; [reflexivity | ]. split.
  - destruct (Z.eq_dec x 0) as [Z0 | NZ]; [subst x; cbn; lia | ].
    pose proof (log2_32 x ltac:(lia)). lia.
  - intros P. pose proof (Z.log2_spec x P) as S. rewrite <- Z.add_1_r in S. exact S.
Qed.

Lemma nLog2_floor_log2_witness :
  0 <= 1000 < 2 ^ 32 /\ nLog2 1000 = Z.log2 1000.
Proof.
  assert (H : 0 <= 1000 < 2 ^ 32) by lia.
  split; [exact H | exact (proj1 (nLog2_floor_log2 1000 H))].
Defined.

(** X2: on a non-zero 32-bit value the [__GNUC__] branch of
    [HighestBitSet] returns an index between 0 and 31 at which the bit is
    set and above which no bit is set; it is the value of [nLog2]. *)
Theorem HighestBitSet_gnuc_index (u : Z) (Hu : 0 < u < 2 ^ 32) :
  exists k, HighestBitSet_gnuc u = Some k /\
            0 <= k <= 31 /\
            Z.testbit u k = true /\
            (forall j, k < j -> Z.testbit u j = false) /\
            k = nLog2 u.
Proof.
  exists (Z.log2 u).
  pose proof (log2_32 u Hu) as Hk.
  split; [apply HighestBitSet_gnuc_log2; exact Hu | ].
  split; [lia | ].
  split; [apply Z.bit_log2; lia | ].
  split; [intros j Hj; apply Z.bits_above_log2; lia | ].
  symmetry. apply nLog2_log2. lia.
Qed.

Lemma HighestBitSet_gnuc_index_witness :
  0 < 0x00F00000 < 2 ^ 32 /\
  exists k, HighestBitSet_gnuc 0x00F00000 = Some k /\ 0 <= k <= 31.
Proof.
  assert (H : 0 < 0x00F00000 < 2 ^ 32) by lia.
  split; [exact H | ].
  destruct (HighestBitSet_gnuc_index 0x00F00000 H) as [k [E [B _]]].
  exists k. split; [exact E | exact B].
Defined.

(** ** Ordering facts on [spec_float] *)

Lemma SFleb_refl (x : spec_float) : x <> S754_nan -> SFleb x x = true.
Proof.
  intros N. unfold SFleb.
  destruct (SFcompare_refl x) as [E | E]; rewrite E; [reflexivity | ].
  destruct x; try discriminate E. contradiction.
Qed.

Lemma SFltb_leb (x y : spec_float) : SFltb x y = true -> SFleb x y = true.
Proof.
  unfold SFltb, SFleb. destruct (SFcompare x y) as [[ | | ] | ]; easy.
Qed.

Lemma SFcompare_defined (x y : spec_float) :
  x <> S754_nan -> y <> S754_nan -> SFcompare x y <> None.
Proof.
  intros Nx Ny. destruct x, y; simpl; try discriminate; contradiction.
Qed.

Lemma SFltb_false_leb (x y : spec_float) :
  x <> S754_nan -> y <> S754_nan -> SFltb x y = false -> SFleb y x = true.
Proof.
  intros Nx Ny. unfold SFltb, SFleb. rewrite (SFcompare_antisym x y).
  pose proof (SFcompare_defined x y Nx Ny) as D.
  destruct (SFcompare x y) as [[ | | ] | ]; simpl; easy.
Qed.

Lemma SFleb_defined (x y : spec_float) :
  SFleb x y = true -> x <> S754_nan /\ y <> S754_nan.
Proof.
  intros L. destruct x, y; try discriminate L; split; discriminate.
Qed.

Lemma is_nan_false (a : F32.float) : F32.is_nan a = false -> F32.value a <> S754_nan.
Proof. unfold F32.is_nan. intros H E. rewrite E in H. discriminate H. Qed.

Lemma is_nan_true (a : F32.float) : F32.is_nan a = true -> F32.value a = S754_nan.
Proof. unfold F32.is_nan. destruct (F32.value a); easy. Qed.

Lemma nan_ltb_l (a b : F32.float) : F32.is_nan a = true -> F32.ltb a b = false.
Proof. intros N. unfold F32.ltb. rewrite (is_nan_true a N). reflexivity. Qed.

Lemma nan_ltb_r (a b : F32.float) : F32.is_nan b = true -> F32.ltb a b = false.
Proof.
  intros N. unfold F32.ltb. rewrite (is_nan_true b N).
  destruct (F32.value a); reflexivity.
Qed.

Lemma nan_gtb_l (a b : F32.float) : F32.is_nan a = true -> F32.gtb a b = false.
Proof. intros N. rewrite F32_gtb_ltb. apply nan_ltb_r. exact N. Qed.

Lemma nan_gtb_r (a b : F32.float) : F32.is_nan b = true -> F32.gtb a b = false.
Proof. intros N. rewrite F32_gtb_ltb. apply nan_ltb_l. exact N. Qed.

(** ** Min and Max *)

(** X3: at [int], [Min] and [Max] are the minimum and the maximum of
    their arguments. *)
Theorem Min_Max_int (x y : Z) :
  Min x y = Z.min x y /\ Max x y = Z.max x y.
Proof.
  unfold Min, Max. cbn [lt gt Scalar_int]. rewrite Z.gtb_ltb.
  destruct (Z.ltb_spec x y), (Z.ltb_spec y x); lia.
Qed.

(** X4: at [float], when neither argument is a NaN, [Min] returns one of
    its arguments and it is at most each of them, [Max] returns one of its
    arguments and it is at least each of them. *)
Theorem Min_Max_float_bounds (x y : F32.float)
        (Hx : F32.is_nan x = false) (Hy : F32.is_nan y = false) :
  (Min x y = x \/ Min x y = y) /\
  F32.leb (Min x y) x = true /\ F32.leb (Min x y) y = true /\
  (Max x y = x \/ Max x y = y) /\
  F32.leb x (Max x y) = true /\ F32.leb y (Max x y) = true.
Proof.
  pose proof (is_nan_false x Hx) as Nx. pose proof (is_nan_false y Hy) as Ny.
  unfold Min, Max. cbn [lt gt Scalar_float]. rewrite F32_gtb_ltb.
  unfold F32.leb, F32.ltb.
  split; [destruct (SFltb (F32.value x) (F32.value y)); auto | ].
  split; [ | split; [ | split; [ | split]]].
  - destruct (SFltb (F32.value x) (F32.value y)) eqn:L.
    + apply SFleb_refl. exact Nx.
    + apply SFltb_false_leb; assumption.
  - destruct (SFltb (F32.value x) (F32.value y)) eqn:L.
    + apply SFltb_leb. exact L.
    + apply SFleb_refl. exact Ny.
  - destruct (SFltb (F32.value y) (F32.value x)); auto.
  - destruct (SFltb (F32.value y) (F32.value x)) eqn:L.
    + apply SFleb_refl. exact Nx.
    + apply SFltb_false_leb; assumption.
  - destruct (SFltb (F32.value y) (F32.value x)) eqn:L.
    + apply SFltb_leb. exact L.
    + apply SFleb_refl. exact Ny.
Qed.

Lemma Min_Max_float_bounds_witness :
  F32.leb (Min (F32.of_int 3) (F32.of_int (-2))) (F32.of_int 3) = true /\
  F32.leb (F32.of_int 3) (Max (F32.of_int 3) (F32.of_int (-2))) = true.
Proof.
  pose proof (Min_Max_float_bounds (F32.of_int 3) (F32.of_int (-2)) eq_refl eq_refl) as H.
  split; [exact (proj1 (proj2 H)) | exact (proj1 (proj2 (proj2 (proj2 (proj2 H)))))].
Defined.

(** X5: when either argument is a NaN, the comparison fails and both
    [Min] and [Max] return their second argument: a NaN in first position
    is dropped, a NaN in second position is returned. *)
Theorem Min_Max_float_nan (x y : F32.float)
        (H : F32.is_nan x = true \/ F32.is_nan y = true) :
  Min x y = y /\ Max x y = y.
Proof.
  unfold Min, Max. cbn [lt gt Scalar_float].
  destruct H as [N | N].
  - rewrite (nan_ltb_l x y N), (nan_gtb_l x y N). split; reflexivity.
  - rewrite (nan_ltb_r x y N), (nan_gtb_r x y N). split; reflexivity.
Qed.

Lemma Min_Max_float_nan_witness :
  Min (F32.of_bits 0x7FC00000) F32.one = F32.one /\
  Max F32.one (F32.of_bits 0x7FC00000) = F32.of_bits 0x7FC00000.
Proof.
  split.
  - apply (Min_Max_float_nan (F32.of_bits 0x7FC00000) F32.one). left. reflexivity.
  - apply (Min_Max_float_nan F32.one (F32.of_bits 0x7FC00000)). right. reflexivity.
Defined.

(** ** Clamp *)

(** X6: at [int], [Clamp] does not depend on the order of the two bounds,
    its result lies between the smaller and the larger bound, and it is the
    value itself when the value lies between them. *)
Theorem Clamp_int (v a b : Z) :
  Clamp v a b = Clamp v b a /\
  Clamp v a b = Z.max (Z.min a b) (Z.min v (Z.max a b)) /\
  Z.min a b <= Clamp v a b <= Z.max a b /\
  (Z.min a b <= v <= Z.max a b -> Clamp v a b = v).
Proof.
  unfold Clamp. cbn [lt gt Scalar_int]. rewrite !Z.gtb_ltb.
  destruct (Z.ltb_spec b a), (Z.ltb_spec a b); try lia;
    repeat match goal with
           | |- context [?x <? ?y] => destruct (Z.ltb_spec x y)
           end; lia.
Qed.

Lemma Clamp_int_witness : Clamp 5 10 1 = 5 /\ Clamp 5 10 1 = Clamp 5 1 10.
Proof.
  destruct (Clamp_int 5 10 1) as [S [_ [_ I]]].
  split; [apply I; lia | exact S].
Defined.

Lemma Clamp_float_ordered (v lo hi : F32.float) :
  F32.is_nan v = false -> F32.leb lo hi = true ->
  let r := (if F32.ltb v lo then lo else if F32.ltb hi v then hi else v) in
  F32.leb lo r = true /\ F32.leb r hi = true.
Proof.
  intros Hv L. pose proof (is_nan_false v Hv) as Nv.
  destruct (SFleb_defined _ _ L) as [Nlo Nhi].
  cbv zeta. unfold F32.leb, F32.ltb in *.
  destruct (SFltb (F32.value v) (F32.value lo)) eqn:A.
  - split; [apply SFleb_refl; exact Nlo | exact L].
  - destruct (SFltb (F32.value hi) (F32.value v)) eqn:B.
    + split; [exact L | apply SFleb_refl; exact Nhi].
    + split; apply SFltb_false_leb; assumption.
Qed.



(** X8: a NaN value goes through [Clamp] (whatever the bounds) and
    through [Saturate] unchanged: the storage returned is the storage
    given. *)
Theorem Clamp_Saturate_nan (v a b : F32.float) (Hv : F32.is_nan v = true) :
  Clamp v a b = v /\ Saturate v = v.
Proof.
  unfold Clamp, Saturate. cbn [lt gt Scalar_float]. split.
  - destruct (F32.gtb a b);
      rewrite (nan_ltb_l v _ Hv), (nan_ltb_r _ v Hv); reflexivity.
  - rewrite (nan_gtb_l v _ Hv), (nan_ltb_l v _ Hv). reflexivity.
Qed.

Lemma Clamp_Saturate_nan_witness :
  Saturate (F32.of_bits 0xFFC12345) = F32.of_bits 0xFFC12345.
Proof.
  apply (Clamp_Saturate_nan (F32.of_bits 0xFFC12345) F32.zero F32.one). reflexivity.
Defined.

(** ** Saturate *)

Lemma Saturate_cases (v : F32.float) :
  Saturate v = F32.one \/ Saturate v = F32.zero \/
  (Saturate v = v /\ F32.gtb v F32.one = false /\ F32.ltb v F32.zero = false).
Proof.
  unfold Saturate.
  destruct (F32.gtb v F32.one) eqn:G.
  - left. reflexivity.
  - destruct (F32.ltb v F32.zero) eqn:L; auto.
Qed.

Lemma Saturate_idempotent (v : F32.float) : Saturate (Saturate v) = Saturate v.
Proof.
  destruct (Saturate_cases v) as [E | [E | [E [G L]]]]; rewrite E;
    try reflexivity.
  unfold Saturate. rewrite G, L. reflexivity.
Qed.

(** X9: [Saturate] is idempotent on every float, and on a float that is
    not a NaN its result lies between 0.0 and 1.0. *)
Theorem Saturate_unit_interval (v : F32.float) :
  Saturate (Saturate v) = Saturate v /\
  (F32.is_nan v = false ->
     F32.leb F32.zero (Saturate v) = true /\ F32.leb (Saturate v) F32.one = true).
Proof.
  split.
  - apply Saturate_idempotent.
  - intros Hv. rewrite Saturate_Clamp.
    unfold Clamp. cbn [lt gt Scalar_float].
    change (F32.gtb F32.zero F32.one) with false. cbv iota.
    apply (Clamp_float_ordered v F32.zero F32.one Hv). reflexivity.
Qed.

Lemma Saturate_unit_interval_witness :
  F32.leb F32.zero (Saturate (F32.of_int (-7))) = true /\
  F32.leb (Saturate (F32.of_int (-7))) F32.one = true.
Proof.
  apply (Saturate_unit_interval (F32.of_int (-7))). reflexivity.
Defined.

(** X10: the in-place [Saturate] writes only through its pointer: every
    other location keeps its content; and applying it twice leaves the
    memory of applying it once. *)
Theorem Saturate_ptr_footprint (m : memory) (p q : addr) :
  (q <> p -> load (Saturate_ptr p m) q = load m q) /\
  load (Saturate_ptr p (Saturate_ptr p m)) q = load (Saturate_ptr p m) q.
Proof.
  split; [apply Saturate_ptr_frame | ].
  destruct (Z.eq_dec q p) as [E | N].
  - subst q.
    assert (S : forall m', load (Saturate_ptr p m') p = Saturate (load m' p)).
    { intros m'. unfold Saturate_ptr, Saturate. rewrite !load_store_same. reflexivity. }
    rewrite !S. apply Saturate_idempotent.
  - rewrite !Saturate_ptr_frame by exact N. reflexivity.
Qed.

Lemma Saturate_ptr_footprint_witness :
  load (Saturate_ptr 8 (store (fun _ => F32.zero) 4 (F32.of_int 9))) 4 = F32.of_int 9.
Proof.
  rewrite (proj1 (Saturate_ptr_footprint (store (fun _ => F32.zero) 4 (F32.of_int 9)) 8 4))
    by discriminate.
  reflexivity.
Defined.

(** ** Sign *)

Lemma Sign_agree_witness :
  Sign_float (F32.of_bits 0xC0400000) = Sign (F32.of_bits 0xC0400000).
Proof.
  apply (Sign_agree 0xC0400000); [lia | discriminate | discriminate].
Defined.

(** X12: on every 32-bit storage, NaN and infinities included, the
    overload [Sign(float)] returns 1.0 when bit 31 is clear and -1.0 when
    it is set, and applying it twice changes nothing more. *)
Theorem Sign_float_unit (b : Z) (Hb : 0 <= b < 2 ^ 32) :
  (Z.testbit b 31 = false -> Sign_float (F32.of_bits b) = F32.of_int 1) /\
  (Z.testbit b 31 = true -> Sign_float (F32.of_bits b) = F32.of_int (-1)) /\
  Sign_float (Sign_float (F32.of_bits b)) = Sign_float (F32.of_bits b).
Proof.
  rewrite (Sign_float_sign_bit b Hb).
  destruct (Z.testbit b 31); repeat split; intros; try discriminate; reflexivity.
Qed.

Lemma Sign_float_unit_witness :
  0 <= 0xFF800000 < 2 ^ 32 /\
  Sign_float (F32.of_bits 0xFF800000) = F32.of_int (-1).
Proof.
  assert (H : 0 <= 0xFF800000 < 2 ^ 32) by lia.
  split; [exact H | ].
  exact (proj1 (proj2 (Sign_float_unit 0xFF800000 H)) eq_refl).
Defined.

(** X13: at [int], [Sign k] is 1 or -1, it is -1 exactly when [k] is
    negative, and [k] times its sign is the absolute value of [k]. *)
Theorem Sign_int (k : Z) :
  (Sign k = 1 \/ Sign k = -1) /\
  (Sign k = -1 <-> k < 0) /\
  Sign k * k = Z.abs k.
Proof.
  unfold Sign. cbn [lt cast_int Scalar_int].
  destruct (Z.ltb_spec k 0).
  - split; [right; reflexivity | ]. split; [tauto | lia].
  - split; [left; reflexivity | ]. split; [ | lia].
    split; [discriminate | lia].
Qed.

(** ** PrevPow2, where its loop exits *)

(** X14: for [2 <= n <= 2^30], and 32 or more tests of the loop condition
    allowed, [PrevPow2] returns a power of two [p] with [p < n <= 2 * p]:
    the largest power of two strictly below [n]. *)
Theorem PrevPow2_below (n : Z) (fuel : nat)
        (Hn : 2 <= n <= 2 ^ 30) (Hf : (32 <= fuel)%nat) :
  exists p, PrevPow2 fuel n = Some p /\ is_pow2 p /\ p < n <= 2 * p.
Proof.
  exists (2 ^ Z.log2 (n - 1)).
  split; [apply PrevPow2_strictly_below; assumption | ].
  pose proof (Z.log2_nonneg (n - 1)) as Hk.
  pose proof (Z.log2_spec (n - 1) ltac:(lia)) as [Lo Hi].
  rewrite Z.pow_succ_r in Hi by lia.
  split; [exists (Z.log2 (n - 1)); split; [lia | reflexivity] | lia].
Qed.

Lemma PrevPow2_below_witness :
  exists p, PrevPow2 32 1000 = Some p /\ is_pow2 p /\ p < 1000 <= 2 * p.
Proof.
  apply (PrevPow2_below 1000 32); [lia | apply le_n].
Defined.

Lemma PrevPow2_loop_iterations (fuel : nat) (x n : Z) (j : nat) :
  PrevPow2_iterations fuel x n = Some j -> exists r, PrevPow2_loop fuel x n = Some r.
Proof.
  revert x j. induction fuel as [ | fuel IH]; intros x j E; [discriminate E | ].
  cbn [PrevPow2_iterations PrevPow2_loop] in *.
  destruct (wrap x <? n).
  - destruct (PrevPow2_iterations fuel (swrap (Z.shiftl x 1)) n) as [j' | ] eqn:E';
      [ | discriminate E].
    apply (IH _ j'). exact E'.
  - exists x. reflexivity.
Qed.

(** X15: for every [n <= 2^31] the loop of [PrevPow2] exits: its body
    runs at most 31 times and [PrevPow2] returns a value. *)
Theorem PrevPow2_exits_up_to_2_31 (n : Z) (Hn : n <= 2 ^ 31) :
  exists j r, (j <= 31)%nat /\
              PrevPow2_iterations 32 1 n = Some j /\
              PrevPow2 32 n = Some r.
Proof.
  destruct (PrevPow2_iterations_bounded n Hn) as [j [Hj E]].
  destruct (PrevPow2_loop_iterations 32 1 n j E) as [r' E'].
  unfold PrevPow2. rewrite E'.
  destruct (n =? 0); eauto.
Qed.

Lemma PrevPow2_exits_up_to_2_31_witness :
  exists j r, (j <= 31)%nat /\
              PrevPow2_iterations 32 1 (2 ^ 31) = Some j /\
              PrevPow2 32 (2 ^ 31) = Some r.
Proof.
  apply (PrevPow2_exits_up_to_2_31 (2 ^ 31)). lia.
Defined.

(** ** NextPow2 beyond the claim *)

Lemma NextPow2_on_powers :
  below 32 (fun k => NextPow2 (2 ^ k) =? 2 ^ k) = true.
Proof. vm_compute. reflexivity. Qed.

(** X16: [NextPow2] leaves every power of two up to [2^31] unchanged, so
    it is idempotent on [1 <= x <= 2^31]; and there its result is below
    [2 * x]. *)
Theorem NextPow2_idempotent (x : Z) (Hx : 1 <= x <= 2 ^ 31) :
  NextPow2 (NextPow2 x) = NextPow2 x /\
  NextPow2 x < 2 * x /\
  (is_pow2 x -> NextPow2 x = x).
Proof.
  assert (P : forall k, 0 <= k < 32 -> NextPow2 (2 ^ k) = 2 ^ k).
  { intros k Hk. apply Z.eqb_eq. exact (below_spec 32 _ NextPow2_on_powers k Hk). }
  assert (Q : exists k, 0 <= k < 32 /\ NextPow2 x = 2 ^ k /\ 2 ^ k < 2 * x).
  { destruct (Z.eq_dec x 1) as [E | N].
    - subst x. exists 0. repeat split; try lia. 
    - rewrite NextPow2_log2 by lia.
      pose proof (Z.log2_nonneg (x - 1)) as Hk.
      pose proof (Z.log2_spec (x - 1) ltac:(lia)) as [Lo Hi].
      assert (Z.log2 (x - 1) < 31) by (apply Z.log2_lt_pow2; lia).
      exists (Z.log2 (x - 1) + 1). split; [lia | ]. split; [reflexivity | ].
      rewrite Z.pow_add_r by lia. change (2 ^ 1) with 2. lia. }
  destruct Q as [k [Hk [E L]]].
  split; [rewrite E; apply P; exact Hk | ].
  split; [rewrite E; exact L | ].
  intros [j [Hj Ej]]. subst x. apply P. split; [exact Hj | ].
  destruct (Z_lt_le_dec j 32) as [L' | G]; [exact L' | ].
  pose proof (Z.pow_le_mono_r 2 32 j ltac:(lia) G). lia.
Qed.

Lemma NextPow2_idempotent_witness :
  1 <= 100 <= 2 ^ 31 /\ NextPow2 (NextPow2 100) = NextPow2 100.
Proof.
  assert (H : 1 <= 100 <= 2 ^ 31) by lia.
  split; [exact H | exact (proj1 (NextPow2_idempotent 100 H))].
Defined.

(** X17: above [2^31] no 32-bit power of two is large enough and
    [NextPow2] wraps around to 0. *)
Theorem NextPow2_wraps_above_2_31 (x : Z) (Hx : 2 ^ 31 < x < 2 ^ 32) :
  NextPow2 x = 0.
Proof.
  rewrite NextPow2_smear, (wrap_small (x - 1)) by lia.
  rewrite smear_pow2 by lia.
  rewrite (Z.log2_unique (x - 1) 31) by (simpl; lia).
  reflexivity.
Qed.

Lemma NextPow2_wraps_above_2_31_witness :
  2 ^ 31 < 0x80000001 < 2 ^ 32 /\ NextPow2 0x80000001 = 0.
Proof.
  assert (H : 2 ^ 31 < 0x80000001 < 2 ^ 32) by lia.
  split; [exact H | exact (NextPow2_wraps_above_2_31 0x80000001 H)].
Defined.

(** ** BitCount beyond the claim *)

Lemma popcount_complement (n : nat) (u : Z) :
  0 <= u < 2 ^ Z.of_nat n ->
  popcount n u + popcount n (2 ^ Z.of_nat n - 1 - u) = Z.of_nat n.
Proof.
  revert u. induction n as [ | n IH]; intros u Hu; [reflexivity | ].
  rewrite Nat2Z.inj_succ, Z.pow_succ_r in * by lia.
  rewrite !popcount_S.
  assert (P : 0 < 2 ^ Z.of_nat n) by (apply Z.pow_pos_nonneg; lia).
  replace ((2 * 2 ^ Z.of_nat n - 1 - u) / 2) with (2 ^ Z.of_nat n - 1 - u / 2)
    by (Z.div_mod_to_equations; lia).
  specialize (IH (u / 2) ltac:(Z.div_mod_to_equations; lia)).
  Z.div_mod_to_equations. lia.
Qed.

Lemma popcount_zero (n : nat) (u : Z) :
  0 <= u < 2 ^ Z.of_nat n -> popcount n u = 0 -> u = 0.
Proof.
  revert u. induction n as [ | n IH]; intros u Hu E; [simpl in Hu; lia | ].
  rewrite Nat2Z.inj_succ, Z.pow_succ_r in Hu by lia.
  rewrite popcount_S in E.
  pose proof (popcount_bounds n (u / 2)) as B.
  assert (H2 : 0 <= u mod 2 < 2) by (apply Z.mod_pos_bound; lia).
  specialize (IH (u / 2) ltac:(Z.div_mod_to_equations; lia) ltac:(lia)).
  Z.div_mod_to_equations. lia.
Qed.

Lemma popcount_lor_land (n : nat) (a b : Z) :
  popcount n (Z.lor a b) + popcount n (Z.land a b) = popcount n a + popcount n b.
Proof.
  revert a b. induction n as [ | n IH]; intros a b; [reflexivity | ].
  cbn [popcount]. rewrite !Z.div2_spec, Z.shiftr_lor, Z.shiftr_land.
  specialize (IH (Z.shiftr a 1) (Z.shiftr b 1)).
  rewrite <- !Z.bit0_odd, Z.lor_spec, Z.land_spec.
  destruct (Z.testbit a 0), (Z.testbit b 0); cbn [orb andb Z.b2z]; lia.
Qed.

Lemma lor_below (a b : Z) :
  0 <= a < 2 ^ 32 -> 0 <= b < 2 ^ 32 -> 0 <= Z.lor a b < 2 ^ 32.
Proof.
  intros Ha Hb.
  assert (E : Z.lor a b = Z.lor a b mod 2 ^ 32).
  { rewrite <- Z.land_ones, Z.land_lor_distr_l, !Z.land_ones by lia.
    rewrite !Z.mod_small by lia. reflexivity. }
  rewrite E. apply Z.mod_pos_bound. lia.
Qed.

(** X18: on every 32-bit value [BitCount] lies between 0 and 32, it is 0
    only at 0, and the counts of a value and of its 32-bit complement add
    up to 32. *)
Theorem BitCount_complement (u : Z) (Hu : 0 <= u < 2 ^ 32) :
  0 <= BitCount u <= 32 /\
  (BitCount u = 0 <-> u = 0) /\
  BitCount u + BitCount (0xFFFFFFFF - u) = 32.
Proof.
  rewrite !BitCount_popcount by lia.
  split; [apply (popcount_bounds 32 u) | ].
  split.
  - split; [apply (popcount_zero 32 u Hu) | intros E; subst u; reflexivity].
  - apply (popcount_complement 32 u Hu).
Qed.

Lemma BitCount_complement_witness :
  0 <= 0x0000FFFF < 2 ^ 32 /\
  BitCount 0x0000FFFF + BitCount (0xFFFFFFFF - 0x0000FFFF) = 32.
Proof.
  assert (H : 0 <= 0x0000FFFF < 2 ^ 32) by lia.
  split; [exact H | exact (proj2 (proj2 (BitCount_complement 0x0000FFFF H)))].
Defined.

(** X19: for 32-bit values [a] and [b], the counts of [a | b] and of
    [a & b] add up to the counts of [a] and of [b]; in particular the count
    of the union of values without a common bit is the sum of their
    counts. *)
Theorem BitCount_lor_land (a b : Z)
        (Ha : 0 <= a < 2 ^ 32) (Hb : 0 <= b < 2 ^ 32) :
  BitCount (Z.lor a b) + BitCount (Z.land a b) = BitCount a + BitCount b /\
  (Z.land a b = 0 -> BitCount (Z.lor a b) = BitCount a + BitCount b).
Proof.
  pose proof (lor_below a b Ha Hb) as Hl.
  pose proof (land_below 32 ltac:(lia) a b Ha) as Hm.
  assert (E : BitCount (Z.lor a b) + BitCount (Z.land a b) = BitCount a + BitCount b).
  { rewrite !BitCount_popcount by assumption. apply popcount_lor_land. }
  split; [exact E | ].
  intros D. rewrite D in E. change (BitCount 0) with 0 in E. lia.
Qed.

Lemma BitCount_lor_land_witness :
  BitCount (Z.lor 0xF0 0x0F) = BitCount 0xF0 + BitCount 0x0F.
Proof.
  apply (BitCount_lor_land 0xF0 0x0F); [lia | lia | reflexivity].
Defined.

(** ** approxf and NaN *)

Lemma round_nan : F32.is_nan (F32.round S754_nan) = true.
Proof. reflexivity. Qed.

Lemma sub_nan (b eps : F32.float) :
  F32.is_nan b = true \/ F32.is_nan eps = true -> F32.is_nan (F32.sub b eps) = true.
Proof.
  intros [N | N]; unfold F32.sub; rewrite (is_nan_true _ N).
  - exact round_nan.
  - destruct (F32.value b); exact round_nan.
Qed.

(** X20: when any of its three arguments is a NaN, [approxf] is false; in
    particular a NaN is not approximately equal to itself. *)
Theorem approxf_nan (a b eps : F32.float)
        (H : F32.is_nan a = true \/ F32.is_nan b = true \/ F32.is_nan eps = true) :
  approxf a b eps = false.
Proof.
  unfold approxf. destruct H as [N | N].
  - rewrite (nan_gtb_l a _ N). reflexivity.
  - rewrite (nan_gtb_r a _ (sub_nan b eps N)). reflexivity.
Qed.

Lemma approxf_nan_witness :
  approxf (F32.of_bits 0x7FC00000) (F32.of_bits 0x7FC00000) F32.one = false.
Proof.
  apply (approxf_nan (F32.of_bits 0x7FC00000) (F32.of_bits 0x7FC00000) F32.one).
  left. reflexivity.
Defined.

(** * Exact single-precision arithmetic on small integers *)

Lemma shl_S (c : nat) (n : positive) : shl (S c) n = xO (shl c n).
Proof. reflexivity. Qed.

Lemma shl_add (a b : nat) (n : positive) : shl a (shl b n) = shl (a + b) n.
Proof. unfold shl. symmetry. apply Nat.iter_add. Qed.

Lemma Pos_iter_shl (n d : positive) : Pos.iter xO n d = shl (Pos.to_nat d) n.
Proof. unfold shl. rewrite Pos2Nat.inj_iter. reflexivity. Qed.

Lemma digits_pos (n : positive) : 1 <= digits n.
Proof. unfold digits. lia. Qed.

Lemma digits_shl (c : nat) (n : positive) : digits (shl c n) = digits n + Z.of_nat c.
Proof.
  unfold digits. induction c as [ | c IH]; [simpl; lia | ].
  rewrite shl_S. cbn [digits2_pos]. rewrite Pos2Z.inj_succ, IH. lia.
Qed.

Lemma Zpos_shl (c : nat) (n : positive) : Z.pos (shl c n) = Z.pos n * 2 ^ Z.of_nat c.
Proof.
  induction c as [ | c IH]; [simpl; lia | ].
  rewrite shl_S, (Pos2Z.inj_xO (shl c n)), IH, Nat2Z.inj_succ, Z.pow_succ_r by lia. lia.
Qed.

Lemma digits_spec (n : positive) : 2 ^ (digits n - 1) <= Z.pos n < 2 ^ digits n.
Proof.
  unfold digits. induction n as [n IH | n IH | ]; cbn [digits2_pos].
  - rewrite Pos2Z.inj_succ, Pos2Z.inj_xI.
    replace (Z.succ (Z.pos (digits2_pos n)) - 1) with (Z.succ (Z.pos (digits2_pos n) - 1)) by lia.
    rewrite !Z.pow_succ_r by lia. lia.
  - rewrite Pos2Z.inj_succ, (Pos2Z.inj_xO n).
    replace (Z.succ (Z.pos (digits2_pos n)) - 1) with (Z.succ (Z.pos (digits2_pos n) - 1)) by lia.
    rewrite !Z.pow_succ_r by lia. lia.
  - simpl. lia.
Qed.

Lemma digits_le (n : positive) (k : Z) : 0 <= k -> Z.pos n < 2 ^ k -> digits n <= k.
Proof.
  intros Hk L. pose proof (digits_spec n) as [Lo _]. pose proof (digits_pos n).
  destruct (Z_lt_le_dec k (digits n)) as [C | C]; [ | exact C].
  pose proof (Z.pow_le_mono_r 2 k (digits n - 1) ltac:(lia) ltac:(lia)). lia.
Qed.

Lemma iter_pos_nat {A} (f : A -> A) (p : positive) (x : A) :
  iter_pos f p x = Nat.iter (Pos.to_nat p) f x.
Proof.
  revert x. induction p as [p IH | p IH | ]; intros x; cbn [iter_pos].
  - rewrite !IH, Pos2Nat.inj_xI, <- Nat.iter_add, <- Nat.iter_succ_r. f_equal. lia.
  - rewrite !IH, Pos2Nat.inj_xO, <- Nat.iter_add. f_equal. lia.
  - reflexivity.
Qed.

Lemma shr_1_exact (m : positive) :
  shr_1 (Build_shr_record (Z.pos (xO m)) false false) = Build_shr_record (Z.pos m) false false.
Proof. reflexivity. Qed.

Lemma iter_shr_1_exact (c : nat) (m : positive) :
  Nat.iter c shr_1 (Build_shr_record (Z.pos (shl c m)) false false)
  = Build_shr_record (Z.pos m) false false.
Proof.
  induction c as [ | c IH]; [reflexivity | ].
  rewrite Nat.iter_succ_r, shl_S, shr_1_exact. exact IH.
Qed.

Lemma shr_exact (c : nat) (m : positive) (e p : Z) :
  0 < p -> (Z.to_nat p <= c)%nat ->
  shr (Build_shr_record (Z.pos (shl c m)) false false) e p
  = (Build_shr_record (Z.pos (shl (c - Z.to_nat p) m)) false false, e + p).
Proof.
  intros Hp Hc. destruct p as [ | p | p]; try lia.
  cbn [shr]. rewrite iter_pos_nat. f_equal.
  replace c with (Pos.to_nat p + (c - Pos.to_nat p))%nat at 1 by (simpl in Hc; lia).
  rewrite <- shl_add. rewrite iter_shr_1_exact. reflexivity.
Qed.

Lemma shl_align_down (m : positive) (ex ez : Z) :
  ez <= ex -> shl_align m ex ez = (shl (Z.to_nat (ex - ez)) m, ez).
Proof.
  intros L. unfold shl_align.
  destruct (ez - ex) as [ | d | d] eqn:E; try lia.
  - replace ex with ez by lia. rewrite Z.sub_diag. reflexivity.
  - rewrite Pos_iter_shl. do 2 f_equal. lia.
Qed.

Lemma shl_align_up (m : positive) (ex ez : Z) :
  ex <= ez -> shl_align m ex ez = (m, ex).
Proof.
  intros L. unfold shl_align.
  destruct (ez - ex) as [ | d | d] eqn:E; try lia; reflexivity.
Qed.

Lemma fexp_24 (x : Z) : fexp 24 128 x = Z.max (x - 24) (-149).
Proof. reflexivity. Qed.

Lemma shr_fexp_canon (m : positive) (e : Z) :
  digits m = 24 -> -149 <= e ->
  shr_fexp 24 128 (Z.pos m) e loc_Exact = (Build_shr_record (Z.pos m) false false, e).
Proof.
  intros Hd He. unfold shr_fexp. cbn [Zdigits2 shr_record_of_loc].
  fold (digits m). rewrite Hd, fexp_24.
  replace (Z.max (24 + e - 24) (-149) - e) with 0 by lia. reflexivity.
Qed.

Lemma aux_from_shr (s : bool) (M e : Z) (m : positive) (e' : Z) :
  shr_fexp 24 128 M e loc_Exact = (Build_shr_record (Z.pos m) false false, e') ->
  digits m = 24 -> -149 <= e' <= 104 ->
  binary_round_aux 24 128 s M e loc_Exact = S754_finite s m e'.
Proof.
  intros H Hd He. unfold binary_round_aux. rewrite H.
  cbn [shr_m loc_of_shr_record round_nearest_even].
  rewrite (shr_fexp_canon m e' Hd) by lia. cbn [shr_m].
  replace (e' <=? 128 - 24) with true by (symmetry; apply Z.leb_le; lia).
  reflexivity.
Qed.

(** Rounding a number that fits: the mantissa [n] carried with [k] extra
    low zero bits at exponent [g - k] rounds to the canonical form of
    [n * 2^g]. *)
Lemma binary_round_fits (s : bool) (n : positive) (k : nat) (g : Z) :
  digits n <= 24 -> -126 <= g <= 104 ->
  binary_round 24 128 s (shl k n) (g - Z.of_nat k) = canon s n g.
Proof.
  intros Hd Hg. pose proof (digits_pos n) as Hp.
  unfold binary_round, canon. fold (digits (shl k n)).
  rewrite digits_shl, fexp_24.
  replace (Z.max (digits n + Z.of_nat k + (g - Z.of_nat k) - 24) (-149))
    with (g + digits n - 24) by lia.
  destruct (Z_le_gt_dec (g + digits n - 24) (g - Z.of_nat k)) as [L | G].
  - rewrite shl_align_down by exact L. rewrite shl_add.
    replace (Z.to_nat (g - Z.of_nat k - (g + digits n - 24)) + k)%nat
      with (Z.to_nat (24 - digits n)) by lia.
    apply aux_from_shr; [ | rewrite digits_shl; lia | lia].
    apply shr_fexp_canon; [rewrite digits_shl; lia | lia].
  - rewrite shl_align_up by lia.
    apply aux_from_shr; [ | rewrite digits_shl; lia | lia].
    unfold shr_fexp. cbn [Zdigits2 shr_record_of_loc]. fold (digits (shl k n)).
    rewrite digits_shl, fexp_24.
    replace (Z.max (digits n + Z.of_nat k + (g - Z.of_nat k) - 24) (-149) - (g - Z.of_nat k))
      with (digits n + Z.of_nat k - 24) by lia.
    rewrite shr_exact by lia.
    f_equal; [ | lia]. do 3 f_equal. lia.
Qed.

Lemma normalize_scaled (z : Z) (k : nat) (g : Z) :
  Z.abs z < 2 ^ 24 -> -126 <= g <= 104 ->
  binary_normalize 24 128 (z * 2 ^ Z.of_nat k) (g - Z.of_nat k) false = SFscaled z g.
Proof.
  intros Hz Hg. destruct z as [ | n | n]; cbn [SFscaled].
  - reflexivity.
  - rewrite <- Zpos_shl. cbn [binary_normalize].
    apply binary_round_fits; [apply digits_le; lia | exact Hg].
  - replace (Z.neg n * 2 ^ Z.of_nat k) with (Z.neg (shl k n))
      by (rewrite <- Pos2Z.opp_pos, Zpos_shl; lia).
    cbn [binary_normalize].
    apply binary_round_fits; [apply digits_le; lia | exact Hg].
Qed.

Lemma of_int_value_scaled (z : Z) :
  Z.abs z < 2 ^ 24 -> binary_normalize 24 128 z 0 false = SFscaled z 0.
Proof.
  intros Hz. pose proof (normalize_scaled z 0 0 Hz ltac:(lia)) as H.
  cbn [Z.of_nat] in H. rewrite Z.pow_0_r, Z.mul_1_r, Z.sub_0_r in H. exact H.
Qed.

Lemma signed_shl (s : bool) (n : positive) (k : nat) :
  cond_Zopp s (Z.pos (shl k n)) = signed s n * 2 ^ Z.of_nat k.
Proof. unfold signed. rewrite Zpos_shl. destruct s; cbn [cond_Zopp]; lia. Qed.

Section Aligned.

Variables (sa sb : bool) (a b : positive) (g : Z).
Hypothesis Ha : digits a <= 24.
Hypothesis Hb : digits b <= 24.
Hypothesis Hg : -126 <= g <= 104.


Lemma aligned_exponent :
  Z.min (g + digits a - 24) (g + digits b - 24) = g - Z.of_nat (align_shift a b).
Proof.
  pose proof (digits_pos a). pose proof (digits_pos b). unfold align_shift. lia.
Qed.

Lemma aligned_l :
  fst (shl_align (shl (Z.to_nat (24 - digits a)) a) (g + digits a - 24) (g - Z.of_nat (align_shift a b)))
  = shl (align_shift a b) a.
Proof.
  pose proof (digits_pos a). pose proof (digits_pos b).
  rewrite shl_align_down by (unfold align_shift; lia). cbn [fst]. rewrite shl_add.
  f_equal. unfold align_shift. lia.
Qed.

Lemma aligned_r :
  fst (shl_align (shl (Z.to_nat (24 - digits b)) b) (g + digits b - 24) (g - Z.of_nat (align_shift a b)))
  = shl (align_shift a b) b.
Proof.
  pose proof (digits_pos a). pose proof (digits_pos b).
  rewrite shl_align_down by (unfold align_shift; lia). cbn [fst]. rewrite shl_add.
  f_equal. unfold align_shift. lia.
Qed.

Lemma SFadd_canon :
  Z.abs (signed sa a + signed sb b) < 2 ^ 24 ->
  SFadd 24 128 (canon sa a g) (canon sb b g) = SFscaled (signed sa a + signed sb b) g.
Proof.
  intros Hs. unfold canon. cbn [SFadd].
  rewrite aligned_exponent, aligned_l, aligned_r, !signed_shl.
  rewrite <- Z.mul_add_distr_r.
  apply normalize_scaled; assumption.
Qed.

Lemma SFsub_canon :
  Z.abs (signed sa a - signed sb b) < 2 ^ 24 ->
  SFsub 24 128 (canon sa a g) (canon sb b g) = SFscaled (signed sa a - signed sb b) g.
Proof.
  intros Hs. unfold canon. cbn [SFsub].
  rewrite aligned_exponent, aligned_l, aligned_r, !signed_shl.
  rewrite <- Z.mul_sub_distr_r.
  apply normalize_scaled; assumption.
Qed.

End Aligned.

Lemma SFscaled_signed (z g : Z) :
  z <> 0 -> exists s n, z = signed s n /\ SFscaled z g = canon s n g.
Proof.
  intros N. destruct z as [ | n | n]; [contradiction | | ].
  - exists false, n. split; reflexivity.
  - exists true, n. split; reflexivity.
Qed.

Lemma signed_abs (s : bool) (n : positive) : Z.abs (signed s n) = Z.pos n.
Proof. destruct s; reflexivity. Qed.

Lemma SFadd_scaled (a b g : Z) :
  Z.abs a < 2 ^ 24 -> Z.abs b < 2 ^ 24 -> Z.abs (a + b) < 2 ^ 24 ->
  -126 <= g <= 104 ->
  SFadd 24 128 (SFscaled a g) (SFscaled b g) = SFscaled (a + b) g.
Proof.
  intros Ha Hb Hs Hg.
  destruct (Z.eq_dec a 0) as [Za | Na].
  { subst a. rewrite Z.add_0_l. destruct b; reflexivity. }
  destruct (Z.eq_dec b 0) as [Zb | Nb].
  { subst b. rewrite Z.add_0_r. destruct a; reflexivity. }
  destruct (SFscaled_signed a g Na) as [sa [pa [Ea Ca]]].
  destruct (SFscaled_signed b g Nb) as [sb [pb [Eb Cb]]].
  rewrite Ca, Cb. subst a b. rewrite signed_abs in Ha, Hb.
  apply SFadd_canon; try assumption; apply digits_le; lia.
Qed.

Lemma SFsub_scaled (a b g : Z) :
  Z.abs a < 2 ^ 24 -> Z.abs b < 2 ^ 24 -> Z.abs (a - b) < 2 ^ 24 ->
  -126 <= g <= 104 ->
  SFsub 24 128 (SFscaled a g) (SFscaled b g) = SFscaled (a - b) g.
Proof.
  intros Ha Hb Hs Hg.
  destruct (Z.eq_dec b 0) as [Zb | Nb].
  { subst b. rewrite Z.sub_0_r. destruct a; reflexivity. }
  destruct (Z.eq_dec a 0) as [Za | Na].
  { subst a. rewrite Z.sub_0_l. destruct b; reflexivity. }
  destruct (SFscaled_signed a g Na) as [sa [pa [Ea Ca]]].
  destruct (SFscaled_signed b g Nb) as [sb [pb [Eb Cb]]].
  rewrite Ca, Cb. subst a b. rewrite signed_abs in Ha, Hb.
  apply SFsub_canon; try assumption; apply digits_le; lia.
Qed.

(** ** Comparison *)

Lemma digits_lt_value (p q : positive) : digits p < digits q -> Z.pos p < Z.pos q.
Proof.
  intros L. pose proof (digits_spec p) as [_ Hp]. pose proof (digits_spec q) as [Hq _].
  pose proof (digits_pos p).
  pose proof (Z.pow_le_mono_r 2 (digits p) (digits q - 1) ltac:(lia) ltac:(lia)). lia.
Qed.

Lemma compare_shl (k : nat) (p q : positive) :
  Pos.compare_cont Eq (shl k p) (shl k q) = (Z.pos p ?= Z.pos q).
Proof.
  change (Pos.compare_cont Eq (shl k p) (shl k q)) with (Z.pos (shl k p) ?= Z.pos (shl k q)).
  rewrite !Zpos_shl.
  assert (P : 0 < 2 ^ Z.of_nat k) by (apply Z.pow_pos_nonneg; lia).
  destruct (Z.compare_spec (Z.pos p) (Z.pos q)) as [E | L | G].
  - rewrite E. apply Z.compare_refl.
  - apply Z.compare_lt_iff. nia.
  - apply Z.compare_gt_iff. nia.
Qed.

Lemma compare_canon_pos (p q : positive) (g : Z) :
  match g + digits p - 24 ?= g + digits q - 24 with
  | Lt => Lt
  | Gt => Gt
  | Eq => Pos.compare_cont Eq (shl (Z.to_nat (24 - digits p)) p)
                              (shl (Z.to_nat (24 - digits q)) q)
  end = (Z.pos p ?= Z.pos q).
Proof.
  destruct (Z.compare_spec (g + digits p - 24) (g + digits q - 24)) as [E | L | G].
  - replace (digits q) with (digits p) by lia. apply compare_shl.
  - symmetry. apply Z.compare_lt_iff. apply digits_lt_value. lia.
  - symmetry. apply Z.compare_gt_iff. apply digits_lt_value. lia.
Qed.

Lemma SFcompare_canon (sa sb : bool) (p q : positive) (g : Z) :
  SFcompare (canon sa p g) (canon sb q g) = Some (signed sa p ?= signed sb q).
Proof.
  unfold canon, signed. cbn [SFcompare]. f_equal.
  destruct sa, sb; cbn [cond_Zopp Z.opp]; try reflexivity.
  - change (Z.neg p ?= Z.neg q) with (CompOpp (Z.pos p ?= Z.pos q)).
    rewrite <- (compare_canon_pos p q g).
    destruct (g + digits p - 24 ?= g + digits q - 24); reflexivity.
  - apply compare_canon_pos.
Qed.

Lemma SFcompare_scaled (a b g : Z) :
  SFcompare (SFscaled a g) (SFscaled b g) = Some (a ?= b).
Proof.
  destruct a as [ | p | p], b as [ | q | q]; try reflexivity.
  - exact (SFcompare_canon false false p q g).
  - exact (SFcompare_canon true true p q g).
Qed.

Lemma SFltb_scaled (a b g : Z) : SFltb (SFscaled a g) (SFscaled b g) = (a <? b).
Proof.
  unfold SFltb, Z.ltb. rewrite SFcompare_scaled. destruct (a ?= b); reflexivity.
Qed.

(** ** Truncation *)

Lemma shiftl_canon (p : positive) (g : Z) :
  digits p <= 24 -> g <= 0 ->
  Z.shiftl (Z.pos (shl (Z.to_nat (24 - digits p)) p)) (g + digits p - 24)
  = Z.pos p / 2 ^ (- g).
Proof.
  intros Hd Hg. pose proof (digits_pos p) as Hp.
  rewrite Z.shiftl_div_pow2 by lia.
  rewrite Zpos_shl, Z2Nat.id by lia.
  replace (2 ^ (- (g + digits p - 24))) with (2 ^ (- g) * 2 ^ (24 - digits p))
    by (rewrite <- Z.pow_add_r by lia; f_equal; lia).
  apply Z.div_mul_cancel_r; apply Z.neq_sym, Z.lt_neq, Z.pow_pos_nonneg; lia.
Qed.

(** ** Storage round trip *)

Lemma lor_below_pow2 (k a c : Z) :
  0 <= k -> 0 <= a < 2 ^ k -> 0 <= c < 2 ^ k -> 0 <= Z.lor a c < 2 ^ k.
Proof.
  intros Hk Ha Hc.
  assert (E : Z.lor a c = Z.lor a c mod 2 ^ k).
  { rewrite <- Z.land_ones, Z.land_lor_distr_l, !Z.land_ones by lia.
    rewrite !Z.mod_small by lia. reflexivity. }
  rewrite E. apply Z.mod_pos_bound. lia.
Qed.

Lemma lor_split (k a b c d : Z) :
  0 <= k -> 0 <= a < 2 ^ k -> 0 <= c < 2 ^ k ->
  Z.lor (a + 2 ^ k * b) (c + 2 ^ k * d) = Z.lor a c + 2 ^ k * Z.lor b d.
Proof.
  intros Hk Ha Hc. apply Z.bits_inj'. intros i Hi.
  rewrite Z.lor_spec.
  rewrite !(testbit_split k Hk) by (try apply lor_below_pow2; assumption).
  destruct (i <? k); rewrite Z.lor_spec; reflexivity.
Qed.

Lemma encode_finite_sum (s : bool) (m : positive) (e : Z) :
  2 ^ 23 <= Z.pos m < 2 ^ 24 -> -149 <= e <= 104 ->
  F32.encode (S754_finite s m e)
  = (Z.pos m - 2 ^ 23) + 2 ^ 23 * (e + 150) + 2 ^ 31 * Z.b2z s.
Proof.
  intros Hm He. unfold F32.encode.
  replace (Z.pos m <? 2 ^ 23) with false by (symmetry; apply Z.ltb_ge; lia).
  rewrite Z.shiftl_mul_pow2 by lia.
  assert (L1 : Z.lor ((e + 150) * 2 ^ 23) (Z.pos m - 2 ^ 23)
               = (Z.pos m - 2 ^ 23) + 2 ^ 23 * (e + 150)).
  { pose proof (lor_split 23 0 (e + 150) (Z.pos m - 2 ^ 23) 0) as H.
    rewrite Z.lor_0_l, Z.lor_0_r, Z.mul_0_r, Z.add_0_r, Z.add_0_l in H.
    rewrite <- H by lia. f_equal. lia. }
  rewrite L1.
  pose proof (lor_split 31 0 (Z.b2z s) ((Z.pos m - 2 ^ 23) + 2 ^ 23 * (e + 150)) 0) as H.
  rewrite Z.lor_0_l, Z.lor_0_r, Z.mul_0_r, Z.add_0_r, Z.add_0_l in H.
  rewrite <- H by lia. f_equal. destruct s; reflexivity.
Qed.

Lemma decode_fields (f E sg : Z) :
  0 <= f < 2 ^ 23 -> 0 <= E < 256 -> 0 <= sg < 2 ->
  let b := f + 2 ^ 23 * E + 2 ^ 31 * sg in
  F32.sign_field b = (sg =? 1) /\ F32.exponent_field b = E /\ F32.fraction_field b = f.
Proof.
  intros Hf HE Hs b.
  assert (Hb : 0 <= f + 2 ^ 23 * E < 2 ^ 31) by lia.
  repeat split.
  - unfold F32.sign_field, b.
    rewrite (testbit_split 31) by lia. change (31 <? 31) with false. cbv iota.
    change (31 - 31) with 0. rewrite Z.bit0_odd.
    assert (C : sg = 0 \/ sg = 1) by lia. destruct C; subst sg; reflexivity.
  - unfold F32.exponent_field, b. change 0xFF with (Z.ones 8).
    rewrite Z.land_ones, Z.shiftr_div_pow2 by lia.
    change (2 ^ 8) with 256. change (2 ^ 23) with 8388608. change (2 ^ 31) with 2147483648.
    change (2 ^ 23) with 8388608 in Hf.
    Z.div_mod_to_equations. lia.
  - unfold F32.fraction_field, b. change 0x7FFFFF with (Z.ones 23).
    rewrite Z.land_ones by lia.
    change (2 ^ 23) with 8388608. change (2 ^ 31) with 2147483648.
    change (2 ^ 23) with 8388608 in Hf.
    Z.div_mod_to_equations. lia.
Qed.

Lemma decode_encode_finite (s : bool) (m : positive) (e : Z) :
  2 ^ 23 <= Z.pos m < 2 ^ 24 -> -149 <= e <= 104 ->
  F32.decode (F32.encode (S754_finite s m e)) = S754_finite s m e.
Proof.
  intros Hm He. rewrite encode_finite_sum by assumption.
  destruct (decode_fields (Z.pos m - 2 ^ 23) (e + 150) (Z.b2z s)) as [S [E F]];
    [lia | lia | destruct s; simpl; lia | ].
  unfold F32.decode. rewrite S, E, F.
  replace (e + 150 =? 0) with false by (symmetry; apply Z.eqb_neq; lia).
  replace (e + 150 =? 255) with false by (symmetry; apply Z.eqb_neq; lia).
  replace (Z.pos m - 2 ^ 23 + 2 ^ 23) with (Z.pos m) by lia.
  replace (e + 150 - 150) with e by lia.
  destruct s; reflexivity.
Qed.

Lemma value_round_scaled (z g : Z) :
  Z.abs z < 2 ^ 24 -> -126 <= g <= 104 ->
  F32.value (F32.round (SFscaled z g)) = SFscaled z g.
Proof.
  intros Hz Hg. unfold F32.value, F32.round. cbn [F32.to_bits].
  destruct z as [ | n | n]; [reflexivity | | ]; cbn [SFscaled]; unfold canon;
    pose proof (digits_pos n);
    pose proof (digits_le n 24 ltac:(lia) ltac:(lia));
    pose proof (digits_spec (shl (Z.to_nat (24 - digits n)) n)) as D;
    rewrite digits_shl in D;
    replace (digits n + Z.of_nat (Z.to_nat (24 - digits n))) with 24 in D by lia;
    apply decode_encode_finite; try lia; exact D.
Qed.

(** ** Floats that hold a scaled integer *)

Lemma holds_of_int (z : Z) : Z.abs z < 2 ^ 24 -> holds (F32.of_int z) z 0.
Proof.
  intros Hz. unfold holds, F32.of_int.
  change F32.prec with 24. change F32.emax with 128.
  rewrite of_int_value_scaled by exact Hz.
  apply value_round_scaled; lia.
Qed.

Lemma holds_add (x y : F32.float) (a b g : Z) :
  holds x a g -> holds y b g ->
  Z.abs a < 2 ^ 24 -> Z.abs b < 2 ^ 24 -> Z.abs (a + b) < 2 ^ 24 ->
  -126 <= g <= 104 ->
  holds (F32.add x y) (a + b) g.
Proof.
  unfold holds, F32.add. intros Hx Hy Ha Hb Hs Hg. rewrite Hx, Hy.
  change F32.prec with 24. change F32.emax with 128.
  rewrite SFadd_scaled by assumption. apply value_round_scaled; assumption.
Qed.

Lemma holds_sub (x y : F32.float) (a b g : Z) :
  holds x a g -> holds y b g ->
  Z.abs a < 2 ^ 24 -> Z.abs b < 2 ^ 24 -> Z.abs (a - b) < 2 ^ 24 ->
  -126 <= g <= 104 ->
  holds (F32.sub x y) (a - b) g.
Proof.
  unfold holds, F32.sub. intros Hx Hy Ha Hb Hs Hg. rewrite Hx, Hy.
  change F32.prec with 24. change F32.emax with 128.
  rewrite SFsub_scaled by assumption. apply value_round_scaled; assumption.
Qed.

Lemma holds_ltb (x y : F32.float) (a b g : Z) :
  holds x a g -> holds y b g -> F32.ltb x y = (a <? b).
Proof.
  unfold holds, F32.ltb. intros Hx Hy. rewrite Hx, Hy. apply SFltb_scaled.
Qed.

Lemma holds_to_int (x : F32.float) (z g : Z) :
  holds x z g -> Z.abs z < 2 ^ 24 -> g <= 0 ->
  F32.to_int x = Some (Z.quot z (2 ^ (- g))).
Proof.
  unfold holds, F32.to_int. intros Hx Hz Hg. rewrite Hx.
  assert (P : 0 < 2 ^ (- g)) by (apply Z.pow_pos_nonneg; lia).
  destruct z as [ | n | n]; cbn [SFscaled].
  - rewrite Z.quot_0_l by lia. reflexivity.
  - unfold canon. rewrite shiftl_canon by (try apply digits_le; lia).
    cbn [cond_Zopp]. rewrite Z.quot_div_nonneg by lia.
    assert (B : 0 <= Z.pos n / 2 ^ (- g) <= Z.pos n).
    { split; [apply Z.div_pos; lia | ].
      apply Z.div_le_upper_bound; [lia | nia]. }
    replace ((- half_modulus <=? Z.pos n / 2 ^ (- g)) && (Z.pos n / 2 ^ (- g) <? half_modulus))
      with true; [reflexivity | ].
    symmetry. apply andb_true_iff. change half_modulus with (2 ^ 31).
    split; [apply Z.leb_le | apply Z.ltb_lt]; lia.
  - unfold canon. rewrite shiftl_canon by (try apply digits_le; lia).
    cbn [cond_Zopp].
    change (Z.neg n) with (- Z.pos n). rewrite Z.quot_opp_l by lia.
    rewrite Z.quot_div_nonneg by lia.
    assert (B : 0 <= Z.pos n / 2 ^ (- g) <= Z.pos n).
    { split; [apply Z.div_pos; lia | ].
      apply Z.div_le_upper_bound; [lia | nia]. }
    replace ((- half_modulus <=? - (Z.pos n / 2 ^ (- g))) && (- (Z.pos n / 2 ^ (- g)) <? half_modulus))
      with true; [reflexivity | ].
    symmetry. apply andb_true_iff. change half_modulus with (2 ^ 31).
    split; [apply Z.leb_le | apply Z.ltb_lt]; lia.
Qed.

Lemma canon_rescale (s : bool) (n : positive) (g : Z) :
  digits n < 24 -> canon s n g = canon s (xO n) (g - 1).
Proof.
  intros Hd. pose proof (digits_pos n) as Hp. unfold canon.
  assert (E : digits (xO n) = digits n + 1).
  { unfold digits. cbn [digits2_pos]. lia. }
  rewrite E. f_equal; [ | lia].
  change (xO n) with (shl 1 n). rewrite shl_add. f_equal. lia.
Qed.

Lemma holds_rescale (x : F32.float) (z g : Z) :
  holds x z g -> Z.abs z < 2 ^ 23 -> holds x (2 * z) (g - 1).
Proof.
  unfold holds. intros Hx Hz. rewrite Hx.
  destruct z as [ | n | n]; [reflexivity | | ]; cbn [SFscaled Z.mul];
    apply canon_rescale;
    pose proof (digits_le n 23 ltac:(lia) ltac:(lia)); lia.
Qed.

Lemma holds_half : holds F32.half 1 (-1).
Proof. reflexivity. Qed.

Lemma RoundToNearest_exact (nInput nNearest : Z) :
  0 < nNearest <= nInput -> nInput < 2 ^ 23 ->
  RoundToNearest nInput nNearest
  = Some (if nInput mod nNearest <? nNearest / 2
          then nInput - nInput mod nNearest
          else nInput + (nNearest - nInput mod nNearest)).
Proof.
  intros Hk Hn. unfold RoundToNearest.
  replace ((nNearest >? nInput) || (nNearest <=? 0)) with false
    by (symmetry; apply orb_false_iff; split; [rewrite Z.gtb_ltb; apply Z.ltb_ge | apply Z.leb_gt]; lia).
  rewrite Z.rem_mod_nonneg, Z.quot_div_nonneg by lia.
  pose proof (Z.mod_pos_bound nInput nNearest ltac:(lia)) as Hr.
  assert (Hh : 0 <= nNearest / 2 <= nNearest) by (Z.div_mod_to_equations; lia).
  cbv zeta.
  pose proof (holds_of_int (nInput mod nNearest) ltac:(lia)) as Hx.
  pose proof (holds_of_int (nNearest / 2) ltac:(lia)) as Hhalf.
  pose proof (holds_of_int nInput ltac:(lia)) as Hin.
  pose proof (holds_of_int nNearest ltac:(lia)) as Hne.
  rewrite (holds_ltb _ _ _ _ 0 Hx Hhalf).
  destruct (nInput mod nNearest <? nNearest / 2).
  - pose proof (holds_sub _ _ _ _ 0 Hin Hx ltac:(lia) ltac:(lia) ltac:(lia) ltac:(lia)) as H.
    rewrite (holds_to_int _ _ 0 H) by lia.
    change (2 ^ (- 0)) with 1. rewrite Z.quot_1_r. reflexivity.
  - pose proof (holds_sub _ _ _ _ 0 Hne Hx ltac:(lia) ltac:(lia) ltac:(lia) ltac:(lia)) as H.
    pose proof (holds_add _ _ _ _ 0 Hin H ltac:(lia) ltac:(lia) ltac:(lia) ltac:(lia)) as H'.
    rewrite (holds_to_int _ _ 0 H') by lia.
    change (2 ^ (- 0)) with 1. rewrite Z.quot_1_r. reflexivity.
Qed.

(** X24: for [0 < nNearest <= nInput < 2^23] every float operation of
    [RoundToNearest] is exact and the result is a multiple of [nNearest]:
    one of the two multiples that enclose [nInput], at a distance below
    [nNearest] or equal to it; an input that already is a multiple of
    [nNearest >= 2] is returned unchanged. *)
Theorem RoundToNearest_multiple (nInput nNearest : Z)
        (Hk : 0 < nNearest <= nInput) (Hn : nInput < 2 ^ 23) :
  exists r, RoundToNearest nInput nNearest = Some r /\
            r mod nNearest = 0 /\
            nInput - nNearest < r <= nInput + nNearest /\
            (r = nInput - nInput mod nNearest \/
             r = nInput - nInput mod nNearest + nNearest) /\
            (nInput mod nNearest = 0 -> 2 <= nNearest -> r = nInput).
Proof.
  rewrite (RoundToNearest_exact nInput nNearest Hk Hn).
  pose proof (Z.mod_pos_bound nInput nNearest ltac:(lia)) as Hr.
  pose proof (Z.div_mod nInput nNearest ltac:(lia)) as Hd.
  eexists. split; [reflexivity | ].
  destruct (Z.ltb_spec (nInput mod nNearest) (nNearest / 2)) as [L | G].
  - split; [ | lia].
    replace (nInput - nInput mod nNearest) with (nInput / nNearest * nNearest) by lia.
    apply Z.mod_mul. lia.
  - split; [ | split; [lia | split; [lia | ]]].
    + replace (nInput + (nNearest - nInput mod nNearest))
        with ((nInput / nNearest + 1) * nNearest) by lia.
      apply Z.mod_mul. lia.
    + intros R0 H2. rewrite R0 in G.
      assert (1 <= nNearest / 2) by (Z.div_mod_to_equations; lia). lia.
Qed.

Lemma RoundToNearest_multiple_witness :
  exists r, RoundToNearest 1000003 7 = Some r /\ r mod 7 = 0.
Proof.
  destruct (RoundToNearest_multiple 1000003 7) as [r [E [M _]]]; [lia | lia | ].
  exists r. split; [exact E | exact M].
Defined.

(** X25: for every integer [n] with [|n| < 2^22]: [Round] of the float
    [n] is [n] when [n >= 0] but [n + 1] when [n < 0] (the sum [n + 0.5] is
    truncated toward zero), and [Round] of the float [n + 0.5] is [n + 1]
    whatever the sign of [n]. *)
Theorem Round_on_integers (n : Z) (Hn : Z.abs n < 2 ^ 22) :
  Round (F32.of_int n) = Some (F32.of_int (if n <? 0 then n + 1 else n)) /\
  Round (F32.add (F32.of_int n) F32.half) = Some (F32.of_int (n + 1)).
Proof.
  pose proof (holds_of_int n ltac:(lia)) as H0.
  pose proof (holds_rescale _ _ _ H0 ltac:(lia)) as H1. change (0 - 1) with (-1) in H1.
  pose proof (holds_add _ _ _ _ _ H1 holds_half ltac:(lia) ltac:(lia) ltac:(lia) ltac:(lia)) as H2.
  pose proof (holds_add _ _ _ _ _ H2 holds_half ltac:(lia) ltac:(lia) ltac:(lia) ltac:(lia)) as H3.
  unfold Round. split.
  - rewrite (holds_to_int _ _ _ H2) by lia. cbn [option_map]. do 2 f_equal.
    change (2 ^ (- -1)) with 2.
    destruct (Z.ltb_spec n 0).
    + replace (2 * n + 1) with (- (2 * (- n - 1) + 1)) by lia.
      rewrite Z.quot_opp_l, Z.quot_div_nonneg by lia.
      Z.div_mod_to_equations. lia.
    + rewrite Z.quot_div_nonneg by lia. Z.div_mod_to_equations. lia.
  - rewrite (holds_to_int _ _ _ H3) by lia. cbn [option_map]. do 2 f_equal.
    change (2 ^ (- -1)) with 2.
    replace (2 * n + 1 + 1) with ((n + 1) * 2) by lia.
    apply Z.quot_mul. lia.
Qed.

Lemma Round_on_integers_witness :
  Round (F32.of_int (-3)) = Some (F32.of_int (-2)) /\
  Round (F32.add (F32.of_int 2) F32.half) = Some (F32.of_int 3).
Proof.
  split.
  - exact (proj1 (Round_on_integers (-3) ltac:(simpl; lia))).
  - exact (proj2 (Round_on_integers 2 ltac:(simpl; lia))).
Defined.

(** ** floorf and frac on halves *)

Lemma normalize_szero (z e : Z) :
  z <> 0 -> binary_normalize 24 128 z e true = binary_normalize 24 128 z e false.
Proof. intros N. destruct z; [contradiction | reflexivity | reflexivity]. Qed.

Lemma shiftr_canon_half (p : positive) :
  digits p <= 24 ->
  Z.shiftr (Z.pos (shl (Z.to_nat (24 - digits p)) p)) (- (-1 + digits p - 24)) = Z.pos p / 2.
Proof.
  intros Hd. unfold Z.shiftr. rewrite Z.opp_involutive.
  rewrite (shiftl_canon p (-1)) by lia. reflexivity.
Qed.

Lemma SFfloor_halves (q : Z) :
  Z.abs q < 2 ^ 24 -> F32.SFfloor (SFscaled q (-1)) = SFscaled (q / 2) 0.
Proof.
  intros Hq. destruct q as [ | p | p]; [reflexivity | | ];
    pose proof (digits_pos p) as Hp;
    pose proof (digits_le p 24 ltac:(lia) ltac:(lia)) as Hd;
    cbn [SFscaled]; unfold canon, F32.SFfloor;
    replace (0 <=? -1 + digits p - 24) with false by (symmetry; apply Z.leb_gt; lia);
    cbv zeta; rewrite (shiftr_canon_half p Hd);
    change F32.prec with 24; change F32.emax with 128.
  - apply of_int_value_scaled.
    assert (0 <= Z.pos p / 2 <= Z.pos p) by (Z.div_mod_to_equations; lia). lia.
  - rewrite Z.shiftl_mul_pow2, Zpos_shl, Z2Nat.id by lia.
    assert (X : 0 < 2 ^ (24 - digits p)) by (apply Z.pow_pos_nonneg; lia).
    replace (2 ^ (- (-1 + digits p - 24))) with (2 * 2 ^ (24 - digits p))
      by (rewrite <- Z.pow_succ_r by lia; f_equal; lia).
    assert (B : 0 <= 2 * (Z.pos p / 2) <= Z.pos p) by (Z.div_mod_to_equations; lia).
    change (Z.neg p) with (- Z.pos p).
    destruct (Z.eqb_spec (Z.pos p / 2 * (2 * 2 ^ (24 - digits p)))
                         (Z.pos p * 2 ^ (24 - digits p))) as [E | N].
    + assert (E2 : 2 * (Z.pos p / 2) = Z.pos p) by nia.
      rewrite normalize_szero by lia.
      replace (- Z.pos p / 2) with (- (Z.pos p / 2)) by (Z.div_mod_to_equations; lia).
      apply of_int_value_scaled. lia.
    + assert (E2 : 2 * (Z.pos p / 2) <> Z.pos p) by nia.
      rewrite normalize_szero by lia.
      replace (- Z.pos p / 2) with (- (Z.pos p / 2 + 1)) by (Z.div_mod_to_equations; lia).
      apply of_int_value_scaled. lia.
Qed.

Lemma holds_floor (x : F32.float) (q : Z) :
  holds x q (-1) -> Z.abs q < 2 ^ 24 -> holds (F32.floor x) (q / 2) 0.
Proof.
  unfold holds, F32.floor. intros Hx Hq. rewrite Hx, SFfloor_halves by exact Hq.
  apply value_round_scaled; [ | lia].
  assert (Z.abs (q / 2) <= Z.abs q) by (Z.div_mod_to_equations; lia). lia.
Qed.

Lemma frac_halves (x : F32.float) (q : Z) :
  holds x q (-1) -> Z.abs q < 2 ^ 23 ->
  frac x = (if Z.even q then F32.zero else F32.half).
Proof.
  intros Hx Hq.
  pose proof (holds_floor x q Hx ltac:(lia)) as Hf.
  assert (Bq : Z.abs (q / 2) <= Z.abs q) by (Z.div_mod_to_equations; lia).
  pose proof (holds_rescale _ _ _ Hf ltac:(lia)) as Hf'. change (0 - 1) with (-1) in Hf'.
  unfold frac, F32.sub. unfold holds in Hx, Hf'. rewrite Hx, Hf'.
  change F32.prec with 24. change F32.emax with 128.
  rewrite SFsub_scaled by (Z.div_mod_to_equations; lia).
  rewrite Zeven_mod.
  replace (q - 2 * (q / 2)) with (q mod 2) by (Z.div_mod_to_equations; lia).
  assert (C : q mod 2 = 0 \/ q mod 2 = 1) by (Z.div_mod_to_equations; lia).
  destruct C as [C | C]; rewrite C; reflexivity.
Qed.

(** X26: for every integer [n] with [|n| < 2^22], negative ones
    included, [frac] of the float [n] is +0.0 and [frac] of the float
    [n + 0.5] is 0.5; but the result is not always below 1: at [-2^-30] the
    difference is rounded to exactly 1.0. *)
Theorem frac_on_halves (n : Z) (Hn : Z.abs n < 2 ^ 22) :
  frac (F32.of_int n) = F32.zero /\
  frac (F32.add (F32.of_int n) F32.half) = F32.half /\
  frac (F32.of_bits 0xB0800000) = F32.one.
Proof.
  assert (Tiny : frac (F32.of_bits 0xB0800000) = F32.one) by (vm_compute; reflexivity).
  pose proof (holds_of_int n ltac:(lia)) as H0.
  pose proof (holds_rescale _ _ _ H0 ltac:(lia)) as H1. change (0 - 1) with (-1) in H1.
  pose proof (holds_add _ _ _ _ _ H1 holds_half ltac:(lia) ltac:(lia) ltac:(lia) ltac:(lia)) as H2.
  split.
  - rewrite (frac_halves _ _ H1) by lia.
    rewrite Z.even_mul. reflexivity.
  - split; [ | exact Tiny].
    rewrite (frac_halves _ _ H2) by lia.
    rewrite Z.even_add, Z.even_mul. reflexivity.
Qed.

Lemma frac_on_halves_witness :
  frac (F32.of_int (-3)) = F32.zero /\
  frac (F32.add (F32.of_int (-3)) F32.half) = F32.half.
Proof.
  destruct (frac_on_halves (-3)) as [A [B _]]; [simpl; lia | ].
  split; [exact A | exact B].
Defined.

(** ** Every storage decodes to a value that encodes back *)

Lemma field_ranges (b : Z) :
  0 <= F32.exponent_field b < 256 /\ 0 <= F32.fraction_field b < 2 ^ 23.
Proof.
  unfold F32.exponent_field, F32.fraction_field.
  change 0xFF with (Z.ones 8). change 0x7FFFFF with (Z.ones 23).
  rewrite !Z.land_ones by lia. split; apply Z.mod_pos_bound; lia.
Qed.

Lemma decode_encode_subnormal (s : bool) (m : positive) :
  Z.pos m < 2 ^ 23 ->
  F32.decode (F32.encode (S754_finite s m (-149))) = S754_finite s m (-149).
Proof.
  intros Hm. unfold F32.encode.
  replace (Z.pos m <? 2 ^ 23) with true by (symmetry; apply Z.ltb_lt; lia).
  assert (E : Z.lor (F32.sign_mask s) (Z.pos m) = Z.pos m + 2 ^ 23 * 0 + 2 ^ 31 * Z.b2z s).
  { pose proof (lor_split 31 0 (Z.b2z s) (Z.pos m) 0) as H.
    rewrite Z.lor_0_l, Z.lor_0_r, Z.mul_0_r, Z.add_0_r, Z.add_0_l in H.
    rewrite Z.mul_0_r, Z.add_0_r, <- H by lia. f_equal. destruct s; reflexivity. }
  rewrite E.
  destruct (decode_fields (Z.pos m) 0 (Z.b2z s)) as [S [X F]];
    [lia | lia | destruct s; simpl; lia | ].
  unfold F32.decode. rewrite S, X, F. cbn [Z.eqb Z.to_pos].
  destruct s; reflexivity.
Qed.

Lemma decode_stable (b : Z) :
  F32.decode (F32.encode (F32.decode b)) = F32.decode b.
Proof.
  destruct (field_ranges b) as [He Hm].
  unfold F32.decode at 2 3.
  destruct (Z.eqb_spec (F32.exponent_field b) 0) as [E0 | N0].
  - destruct (Z.eqb_spec (F32.fraction_field b) 0) as [M0 | NM].
    + destruct (F32.sign_field b); reflexivity.
    + apply decode_encode_subnormal. rewrite Z2Pos.id by lia. lia.
  - destruct (Z.eqb_spec (F32.exponent_field b) 255) as [E1 | N1].
    + destruct (F32.fraction_field b =? 0); [destruct (F32.sign_field b) | ]; reflexivity.
    + apply decode_encode_finite; [rewrite Z2Pos.id by lia; lia | lia].
Qed.

Lemma value_round_value (x : F32.float) : F32.value (F32.round (F32.value x)) = F32.value x.
Proof. apply decode_stable. Qed.

Lemma compare_zero_sign (a : spec_float) (s s' : bool) :
  SFcompare a (S754_zero s) = SFcompare a (S754_zero s').
Proof. destruct a; reflexivity. Qed.

Lemma compare_sub_zero (a : spec_float) (x : F32.float) (s : bool) :
  SFcompare a (F32.decode (F32.encode (SFsub 24 128 (F32.value x) (S754_zero s))))
  = SFcompare a (F32.value x).
Proof.
  pose proof (value_round_value x) as R. unfold F32.value, F32.round in R.
  cbn [F32.to_bits] in R. unfold F32.value in *.
  destruct (F32.decode (F32.to_bits x)) as [sx | sx | | sx m e] eqn:V.
  - destruct sx, s; apply (compare_zero_sign a).
  - exact (f_equal (SFcompare a) R).
  - reflexivity.
  - exact (f_equal (SFcompare a) R).
Qed.

Lemma compare_add_zero (a : spec_float) (x : F32.float) (s : bool) :
  SFcompare a (F32.decode (F32.encode (SFadd 24 128 (F32.value x) (S754_zero s))))
  = SFcompare a (F32.value x).
Proof.
  pose proof (value_round_value x) as R. unfold F32.value, F32.round in R.
  cbn [F32.to_bits] in R. unfold F32.value in *.
  destruct (F32.decode (F32.to_bits x)) as [sx | sx | | sx m e] eqn:V.
  - destruct sx, s; apply (compare_zero_sign a).
  - exact (f_equal (SFcompare a) R).
  - reflexivity.
  - exact (f_equal (SFcompare a) R).
Qed.

Lemma ltb_add_zero (a b eps : F32.float) (s : bool) :
  F32.value eps = S754_zero s -> F32.ltb a (F32.add b eps) = F32.ltb a b.
Proof.
  intros He. unfold F32.ltb, SFltb, F32.add. rewrite He.
  change (F32.value (F32.round (SFadd F32.prec F32.emax (F32.value b) (S754_zero s))))
    with (F32.decode (F32.encode (SFadd 24 128 (F32.value b) (S754_zero s)))).
  rewrite compare_add_zero. reflexivity.
Qed.

Lemma gtb_sub_zero (a b eps : F32.float) (s : bool) :
  F32.value eps = S754_zero s -> F32.gtb a (F32.sub b eps) = F32.gtb a b.
Proof.
  intros He. unfold F32.gtb, F32.SFgtb, F32.sub. rewrite He.
  change (F32.value (F32.round (SFsub F32.prec F32.emax (F32.value b) (S754_zero s))))
    with (F32.decode (F32.encode (SFsub 24 128 (F32.value b) (S754_zero s)))).
  rewrite compare_sub_zero. reflexivity.
Qed.

(** X21: with an epsilon of zero (of either sign) [approxf] is false for
    all [a] and [b]; in particular [approxf(x, x, 0.0f)] is false. *)
Theorem approxf_zero_epsilon (a b eps : F32.float) (s : bool)
        (He : F32.value eps = S754_zero s) :
  approxf a b eps = false.
Proof.
  unfold approxf. rewrite (gtb_sub_zero a b eps s He), (ltb_add_zero a b eps s He).
  unfold F32.gtb, F32.ltb, F32.SFgtb, SFltb.
  destruct (SFcompare (F32.value a) (F32.value b)) as [[ | | ] | ]; reflexivity.
Qed.

Lemma approxf_zero_epsilon_witness :
  approxf F32.one F32.one F32.zero = false.
Proof.
  apply (approxf_zero_epsilon F32.one F32.one F32.zero false). reflexivity.
Defined.

(** X23: [SinFromCos] returns a NaN on a NaN, 0.0 on either infinity
    (the radicand is minus infinity) and 1.0 on either zero; [CosFromSin]
    is the same function. *)
Theorem SinFromCos_edges (cos : F32.float) :
  (F32.is_nan cos = true -> F32.is_nan (SinFromCos cos) = true) /\
  (forall s, F32.value cos = S754_infinity s -> SinFromCos cos = F32.zero) /\
  (forall s, F32.value cos = S754_zero s -> SinFromCos cos = F32.one) /\
  CosFromSin cos = SinFromCos cos.
Proof.
  unfold CosFromSin, SinFromCos, F32.sub, F32.mul, F32.leb, F32.sqrt.
  repeat split.
  - intros N. rewrite (is_nan_true cos N). reflexivity.
  - intros s V. rewrite V. destruct s; reflexivity.
  - intros s V. rewrite V. destruct s; reflexivity.
Qed.

Lemma SinFromCos_edges_witness :
  SinFromCos (F32.of_bits 0xFF800000) = F32.zero /\
  F32.is_nan (SinFromCos (F32.of_bits 0x7FC00000)) = true.
Proof.
  destruct (SinFromCos_edges (F32.of_bits 0xFF800000)) as [_ [I _]].
  destruct (SinFromCos_edges (F32.of_bits 0x7FC00000)) as [N _].
  split; [apply (I true); reflexivity | apply N; reflexivity].
Defined.

(** X22: on floats that hold integers of magnitude below [2^23] the
    window of [approxf] is computed exactly: [approxf(a, b, e)] is true
    exactly when [|a - b| < e]. *)
Theorem approxf_on_integers (a b e : Z)
        (Ha : Z.abs a < 2 ^ 23) (Hb : Z.abs b < 2 ^ 23) (He : Z.abs e < 2 ^ 23) :
  approxf (F32.of_int a) (F32.of_int b) (F32.of_int e) = true <-> Z.abs (a - b) < e.
Proof.
  pose proof (holds_of_int a ltac:(lia)) as Xa.
  pose proof (holds_of_int b ltac:(lia)) as Xb.
  pose proof (holds_of_int e ltac:(lia)) as Xe.
  pose proof (holds_sub _ _ _ _ 0 Xb Xe ltac:(lia) ltac:(lia) ltac:(lia) ltac:(lia)) as Xs.
  pose proof (holds_add _ _ _ _ 0 Xb Xe ltac:(lia) ltac:(lia) ltac:(lia) ltac:(lia)) as Xp.
  unfold approxf. rewrite F32_gtb_ltb.
  rewrite (holds_ltb _ _ _ _ 0 Xs Xa), (holds_ltb _ _ _ _ 0 Xa Xp).
  rewrite andb_true_iff, !Z.ltb_lt. lia.
Qed.

Lemma approxf_on_integers_witness :
  approxf (F32.of_int 1000) (F32.of_int 1002) (F32.of_int 3) = true.
Proof.
  apply (approxf_on_integers 1000 1002 3); simpl; lia.
Defined.

(** ** The templates at float and at int *)

Lemma ltb_of_int (a b : Z) :
  Z.abs a < 2 ^ 24 -> Z.abs b < 2 ^ 24 ->
  F32.ltb (F32.of_int a) (F32.of_int b) = (a <? b).
Proof.
  intros Ha Hb. apply (holds_ltb _ _ a b 0); apply holds_of_int; assumption.
Qed.

(** X27: on integers of magnitude below [2^24], which convert to float
    exactly, the float instances of [Min], [Max], [Clamp] and [Sign] give
    the converted result of the int instances, and [Saturate] gives the
    converted [Clamp<int>(v, 0, 1)]. *)
Theorem templates_commute_with_conversion (v a b : Z)
        (Hv : Z.abs v < 2 ^ 24) (Ha : Z.abs a < 2 ^ 24) (Hb : Z.abs b < 2 ^ 24) :
  Min (F32.of_int a) (F32.of_int b) = F32.of_int (Min a b) /\
  Max (F32.of_int a) (F32.of_int b) = F32.of_int (Max a b) /\
  Clamp (F32.of_int v) (F32.of_int a) (F32.of_int b) = F32.of_int (Clamp v a b) /\
  Sign (F32.of_int v) = F32.of_int (Sign v) /\
  Saturate (F32.of_int v) = F32.of_int (Clamp v 0 1).
Proof.
  assert (C : forall lo hi, Z.abs lo < 2 ^ 24 -> Z.abs hi < 2 ^ 24 ->
    (if F32.ltb (F32.of_int v) (F32.of_int lo) then F32.of_int lo
     else if F32.ltb (F32.of_int hi) (F32.of_int v) then F32.of_int hi
          else F32.of_int v)
    = F32.of_int (if v <? lo then lo else if hi <? v then hi else v)).
  { intros lo hi Hlo Hhi. rewrite !ltb_of_int by assumption.
    destruct (v <? lo); [reflexivity | ]. destruct (hi <? v); reflexivity. }
  split; [ | split; [ | split; [ | split]]].
  - unfold Min. cbn [lt Scalar_float Scalar_int].
    rewrite ltb_of_int by assumption. destruct (a <? b); reflexivity.
  - unfold Max. cbn [gt Scalar_float Scalar_int].
    rewrite F32_gtb_ltb, Z.gtb_ltb, ltb_of_int by assumption.
    destruct (b <? a); reflexivity.
  - unfold Clamp. cbn [lt gt Scalar_float Scalar_int].
    rewrite F32_gtb_ltb, Z.gtb_ltb, ltb_of_int by assumption.
    destruct (b <? a); apply C; assumption.
  - unfold Sign. cbn [lt cast_int Scalar_float Scalar_int].
    rewrite ltb_of_int by (try assumption; simpl; lia).
    destruct (v <? 0); reflexivity.
  - rewrite Saturate_Clamp.
    change F32.zero with (F32.of_int 0). change F32.one with (F32.of_int 1).
    unfold Clamp. cbn [lt gt Scalar_float Scalar_int].
    change (F32.gtb (F32.of_int 0) (F32.of_int 1)) with false.
    change (0 >? 1) with false. cbv iota.
    apply C; simpl; lia.
Qed.

Lemma templates_commute_with_conversion_witness :
  Clamp (F32.of_int 50) (F32.of_int 10) (F32.of_int 1) = F32.of_int (Clamp 50 10 1).
Proof.
  exact (proj1 (proj2 (proj2 (templates_commute_with_conversion 50 10 1
           ltac:(simpl; lia) ltac:(simpl; lia) ltac:(simpl; lia))))).
Defined.

(** * Rounding to nearest, and approxf on every finite float *)

(** Every storage decodes to NaN or to a canonical value, and a canonical
    value survives the round trip through its storage. *)
Lemma decode_canonical (b : Z) :
  F32.decode b = S754_nan \/ canonical (F32.decode b).
Proof.
  pose proof (field_ranges b) as [HE HF].
  unfold F32.decode.
  destruct (F32.exponent_field b =? 0) eqn:E0.
  - right. destruct (F32.fraction_field b =? 0) eqn:F0; [exact I | ].
    apply Z.eqb_neq in F0. cbn [canonical]. rewrite Z2Pos.id by lia. lia.
  - destruct (F32.exponent_field b =? 255) eqn:E1.
    + destruct (F32.fraction_field b =? 0); [right; exact I | left; reflexivity].
    + right. apply Z.eqb_neq in E0, E1. cbn [canonical]. rewrite Z2Pos.id by lia. lia.
Qed.

Lemma decode_encode_canonical (x : spec_float) :
  canonical x -> F32.decode (F32.encode x) = x.
Proof.
  destruct x as [s | s | | s m e]; cbn [canonical]; intros C.
  - destruct s; reflexivity.
  - destruct s; reflexivity.
  - destruct C.
  - destruct (Z_lt_le_dec (Z.pos m) (2 ^ 23)) as [L | G].
    + replace e with (-149) by lia. apply decode_encode_subnormal. exact L.
    + apply decode_encode_finite; lia.
Qed.

Lemma value_round_canonical (x : spec_float) :
  canonical x -> F32.value (F32.round x) = x.
Proof. apply decode_encode_canonical. Qed.

Lemma value_canonical (a : F32.float) :
  F32.is_nan a = false -> canonical (F32.value a).
Proof.
  intros N. destruct (decode_canonical (F32.to_bits a)) as [E | C]; [ | exact C].
  unfold F32.is_nan, F32.value in N. rewrite E in N. discriminate N.
Qed.

(** ** Order of canonical values *)

Lemma magnitude_bounds (m : positive) (e : Z) :
  Z.pos m < 2 ^ 24 -> -149 <= e <= 104 ->
  0 < Z.pos m * 2 ^ (e + 149) < 2 ^ 277.
Proof.
  intros Hm He.
  assert (P : 0 < 2 ^ (e + 149)) by (apply Z.pow_pos_nonneg; lia).
  assert (Q : 2 ^ (e + 149) <= 2 ^ 253) by (apply Z.pow_le_mono_r; lia).
  change (2 ^ 277) with (2 ^ 24 * 2 ^ 253). nia.
Qed.

Lemma magnitude_exponent_lt (m1 m2 : positive) (e1 e2 : Z) :
  Z.pos m1 < 2 ^ 24 -> 2 ^ 23 <= Z.pos m2 -> -149 <= e1 < e2 ->
  Z.pos m1 * 2 ^ (e1 + 149) < Z.pos m2 * 2 ^ (e2 + 149).
Proof.
  intros H1 H2 He.
  assert (P : 0 < 2 ^ (e1 + 149)) by (apply Z.pow_pos_nonneg; lia).
  assert (Q : 2 * 2 ^ (e1 + 149) <= 2 ^ (e2 + 149)).
  { rewrite <- Z.pow_succ_r by lia. apply Z.pow_le_mono_r; lia. }
  nia.
Qed.

Lemma Pcompare_Eq (p q : positive) : Pos.compare_cont Eq p q = (Z.pos p ?= Z.pos q).
Proof. reflexivity. Qed.

Lemma compare_scale (a b c : Z) : 0 < c -> (a * c ?= b * c) = (a ?= b).
Proof.
  intros Hc. destruct (Z.compare_spec a b) as [E | L | G].
  - subst. apply Z.compare_refl.
  - apply Z.compare_lt_iff. nia.
  - apply Z.compare_gt_iff. nia.
Qed.

Lemma compare_opp (a b : Z) : (- a ?= - b) = CompOpp (a ?= b).
Proof. rewrite Z.compare_opp. apply Z.compare_antisym. Qed.

(** On canonical values [SFcompare] is the comparison of the numbers
    denoted. *)
Lemma SFcompare_exact (x y : spec_float) :
  canonical x -> canonical y ->
  SFcompare x y = Some (exact_value x ?= exact_value y).
Proof.
  destruct x as [sx | sx | | sx mx ex]; destruct y as [sy | sy | | sy my ey];
    cbn [canonical]; intros Cx Cy; try contradiction;
    cbn [SFcompare exact_value].
  - reflexivity.
  - destruct sy; reflexivity.
  - destruct Cy as [Hm [He _]]. pose proof (magnitude_bounds my ey Hm He) as B.
    f_equal. destruct sy; cbn [cond_Zopp]; symmetry.
    + apply Z.compare_gt_iff. lia.
    + apply Z.compare_lt_iff. lia.
  - destruct sx; reflexivity.
  - destruct sx, sy; reflexivity.
  - destruct Cy as [Hm [He _]]. pose proof (magnitude_bounds my ey Hm He) as B.
    f_equal. destruct sx, sy; cbn [cond_Zopp]; symmetry;
      solve [apply Z.compare_gt_iff; lia | apply Z.compare_lt_iff; lia].
  - destruct Cx as [Hm [He _]]. pose proof (magnitude_bounds mx ex Hm He) as B.
    f_equal. destruct sx; cbn [cond_Zopp]; symmetry.
    + apply Z.compare_lt_iff. lia.
    + apply Z.compare_gt_iff. lia.
  - destruct Cx as [Hm [He _]]. pose proof (magnitude_bounds mx ex Hm He) as B.
    f_equal. destruct sx, sy; cbn [cond_Zopp]; symmetry;
      solve [apply Z.compare_gt_iff; lia | apply Z.compare_lt_iff; lia].
  - destruct Cx as [Hmx [Hex Nx]], Cy as [Hmy [Hey Ny]].
    pose proof (magnitude_bounds mx ex Hmx Hex) as Bx.
    pose proof (magnitude_bounds my ey Hmy Hey) as By.
    assert (M : (Z.pos mx * 2 ^ (ex + 149) ?= Z.pos my * 2 ^ (ey + 149))
                = match ex ?= ey with
                  | Eq => Pos.compare_cont Eq mx my
                  | Lt => Lt
                  | Gt => Gt
                  end).
    { destruct (Z.compare_spec ex ey) as [E | L | G].
      - subst ey. rewrite Pcompare_Eq. apply compare_scale. apply Z.pow_pos_nonneg; lia.
      - apply Z.compare_lt_iff. apply magnitude_exponent_lt; lia.
      - apply Z.compare_gt_iff. apply magnitude_exponent_lt; lia. }
    f_equal. destruct sx, sy; cbn [cond_Zopp].
    + rewrite compare_opp, M. destruct (ex ?= ey); reflexivity.
    + symmetry. apply Z.compare_lt_iff. lia.
    + symmetry. apply Z.compare_gt_iff. lia.
    + rewrite M. reflexivity.
Qed.

(** ** Rounding to nearest is faithful *)

Lemma shr_1_spec (m : Z) (r s : bool) :
  0 <= m ->
  shr_1 (Build_shr_record m r s) = Build_shr_record (m / 2) (Z.odd m) (r || s).
Proof.
  intros Hm. destruct m as [ | p | p]; [reflexivity | | lia].
  destruct p as [p | p | ]; cbn [shr_1].
  - rewrite Pos2Z.inj_xI. replace ((2 * Z.pos p + 1) / 2) with (Z.pos p)
      by (Z.div_mod_to_equations; lia). reflexivity.
  - rewrite (Pos2Z.inj_xO p). replace (2 * Z.pos p / 2) with (Z.pos p)
      by (Z.div_mod_to_equations; lia). reflexivity.
  - reflexivity.
Qed.

(** Shifting [j] bits out leaves the quotient by [2^j]; the round and
    sticky bits are both clear exactly when the remainder is zero. *)
Lemma iter_shr_1_spec (j : nat) (M : Z) :
  0 <= M ->
  let rec := Nat.iter j shr_1 (Build_shr_record M false false) in
  shr_m rec = M / 2 ^ Z.of_nat j /\
  (shr_r rec || shr_s rec = false <-> M mod 2 ^ Z.of_nat j = 0).
Proof.
  intros HM. induction j as [ | j IH].
  - cbn. rewrite Z.div_1_r, Z.mod_1_r. tauto.
  - cbn zeta in IH |- *. rewrite Nat.iter_succ.
    destruct (Nat.iter j shr_1 (Build_shr_record M false false)) as [m r s].
    cbn [shr_m shr_r shr_s] in IH. destruct IH as [Em Ex].
    assert (P : 0 < 2 ^ Z.of_nat j) by (apply Z.pow_pos_nonneg; lia).
    assert (Hm : 0 <= m) by (rewrite Em; apply Z.div_pos; lia).
    rewrite shr_1_spec by exact Hm. cbn [shr_m shr_r shr_s].
    rewrite Nat2Z.inj_succ, Z.pow_succ_r by lia.
    split.
    + rewrite Em, Z.div_div by lia. f_equal. lia.
    + rewrite (Z.mul_comm 2), Z.rem_mul_r by lia.
      rewrite <- Em. rewrite orb_false_iff, Ex.
      rewrite <- Z.negb_even, negb_false_iff, Z.even_spec.
      pose proof (Z.mod_pos_bound M (2 ^ Z.of_nat j) P) as B1.
      pose proof (Z.mod_pos_bound m 2 ltac:(lia)) as B2.
      split.
      * intros [[h Eh] E0]. rewrite E0.
        replace (m mod 2) with 0 by (Z.div_mod_to_equations; lia). lia.
      * intros E. assert (M mod 2 ^ Z.of_nat j = 0 /\ m mod 2 = 0) as [E1 E2] by nia.
        split; [ | exact E1]. exists (m / 2). Z.div_mod_to_equations. lia.
Qed.

Lemma round_nearest_even_spec (rec : shr_record) :
  let m := round_nearest_even (shr_m rec) (loc_of_shr_record rec) in
  m = shr_m rec \/ (m = shr_m rec + 1 /\ shr_r rec || shr_s rec = true).
Proof.
  destruct rec as [m r s]. cbn [shr_m shr_r shr_s loc_of_shr_record].
  destruct r, s; cbn [round_nearest_even orb]; try (left; reflexivity).
  - right. split; reflexivity.
  - destruct (Z.even m); [left | right; split]; reflexivity.
Qed.

Lemma binary_round_aux_finish (s : bool) (M e : Z) :
  binary_round_aux 24 128 s M e loc_Exact
  = round_finish s (round_nearest_even (shr_m (fst (shr_fexp 24 128 M e loc_Exact)))
                      (loc_of_shr_record (fst (shr_fexp 24 128 M e loc_Exact))))
                 (snd (shr_fexp 24 128 M e loc_Exact)).
Proof.
  unfold binary_round_aux, round_finish.
  destruct (shr_fexp 24 128 M e loc_Exact) as [mrs e']. reflexivity.
Qed.

Lemma shr_fexp_still (m : positive) (e : Z) :
  Z.max (digits m + e - 24) (-149) <= e ->
  shr_fexp 24 128 (Z.pos m) e loc_Exact = (Build_shr_record (Z.pos m) false false, e).
Proof.
  intros H. unfold shr_fexp. cbn [Zdigits2 shr_record_of_loc]. fold (digits m).
  rewrite fexp_24. unfold shr.
  destruct (Z.max (digits m + e - 24) (-149) - e) as [ | p | p] eqn:E; [reflexivity | lia | reflexivity].
Qed.

Lemma round_finish_still (s : bool) (m : positive) (e : Z) :
  Z.max (digits m + e - 24) (-149) <= e ->
  round_finish s (Z.pos m) e = if e <=? 104 then S754_finite s m e else S754_infinity s.
Proof.
  intros H. unfold round_finish. rewrite shr_fexp_still by exact H. reflexivity.
Qed.

Lemma round_finish_carry (s : bool) (t : Z) :
  -149 <= t ->
  round_finish s (2 ^ 24) t
  = if t + 1 <=? 104 then S754_finite s (2 ^ 23)%positive (t + 1) else S754_infinity s.
Proof.
  intros H. unfold round_finish, shr_fexp.
  change (Zdigits2 (2 ^ 24)) with 25. rewrite fexp_24.
  replace (Z.max (25 + t - 24) (-149) - t) with 1 by lia.
  reflexivity.
Qed.

Lemma exact_value_bounds (c : spec_float) :
  canonical c -> - 2 ^ 277 <= exact_value c <= 2 ^ 277.
Proof.
  destruct c as [s | s | | s m e]; cbn [canonical exact_value]; intros C.
  - lia.
  - destruct s; cbn [cond_Zopp]; lia.
  - lia.
  - destruct C as [Hm [He _]]. pose proof (magnitude_bounds m e Hm He).
    destruct s; cbn [cond_Zopp]; lia.
Qed.

Lemma canonical_opp (c : spec_float) : canonical c -> canonical (SFopp c).
Proof. destruct c; cbn [canonical SFopp]; tauto. Qed.

Lemma exact_value_opp (c : spec_float) : exact_value (SFopp c) = - exact_value c.
Proof.
  destruct c as [s | s | | s m e]; cbn [exact_value SFopp]; try reflexivity;
    destruct s; cbn [cond_Zopp negb]; lia.
Qed.

Lemma SFopp_involutive (c : spec_float) : SFopp (SFopp c) = c.
Proof. destruct c as [s | s | | s m e]; cbn [SFopp]; rewrite ?negb_involutive; reflexivity. Qed.

Lemma faithful_opp (X R : Z) : faithful X R -> faithful (- X) (- R).
Proof.
  intros F c C. destruct (F (SFopp c) (canonical_opp c C)) as [U D].
  rewrite exact_value_opp in U, D. split; intros H;
    [assert (G : - exact_value c <= X) by lia; apply D in G
    | assert (G : X <= - exact_value c) by lia; apply U in G]; lia.
Qed.

Lemma faithful_exact (X : Z) : faithful X X.
Proof. intros c _. tauto. Qed.

Lemma faithful_top (X : Z) : 2 ^ 277 <= X -> faithful X (2 ^ 277).
Proof.
  intros H c C. pose proof (exact_value_bounds c C). split; lia.
Qed.

(** Between two neighbours [q * 2^t] and [(q + 1) * 2^t] of a 24-bit [q]
    there is no canonical value. *)
Lemma canonical_gap (q t : Z) (c : spec_float) :
  2 ^ 23 <= q < 2 ^ 24 -> -149 <= t <= 104 -> canonical c ->
  ~ (q * 2 ^ (t + 149) < exact_value c < (q + 1) * 2 ^ (t + 149)).
Proof.
  intros Hq Ht C [L U].
  assert (P : 0 < 2 ^ (t + 149)) by (apply Z.pow_pos_nonneg; lia).
  assert (QP : 0 < q * 2 ^ (t + 149)) by nia.
  destruct c as [s | s | | s m e]; cbn [canonical exact_value] in *.
  - lia.
  - assert (Q : 2 ^ (t + 149) <= 2 ^ 253) by (apply Z.pow_le_mono_r; lia).
    assert (T : (q + 1) * 2 ^ (t + 149) <= 2 ^ 24 * 2 ^ 253) by nia.
    change (2 ^ 24 * 2 ^ 253) with (2 ^ 277) in T.
    destruct s; cbn [cond_Zopp] in *; lia.
  - lia.
  - destruct C as [Hm [He Hn]]. pose proof (magnitude_bounds m e Hm He) as B.
    destruct s; cbn [cond_Zopp] in *; [lia | ].
    destruct (Z_lt_le_dec e t) as [Lt | Ge].
    + assert (Q : 2 * 2 ^ (e + 149) <= 2 ^ (t + 149)).
      { rewrite <- Z.pow_succ_r by lia. apply Z.pow_le_mono_r; lia. }
      nia.
    + replace (e + 149) with ((e - t) + (t + 149)) in L, U by lia.
      rewrite (Z.pow_add_r 2 (e - t) (t + 149)) in L, U by lia.
      assert (K : 0 < 2 ^ (e - t)) by (apply Z.pow_pos_nonneg; lia).
      assert (A : q < Z.pos m * 2 ^ (e - t)) by nia.
      assert (B' : Z.pos m * 2 ^ (e - t) < q + 1) by nia.
      lia.
Qed.

Lemma faithful_down (X q t : Z) :
  2 ^ 23 <= q < 2 ^ 24 -> -149 <= t <= 104 ->
  q * 2 ^ (t + 149) <= X < (q + 1) * 2 ^ (t + 149) ->
  faithful X (q * 2 ^ (t + 149)).
Proof.
  intros Hq Ht HX c C. pose proof (canonical_gap q t c Hq Ht C). split; lia.
Qed.

Lemma faithful_up (X q t : Z) :
  2 ^ 23 <= q < 2 ^ 24 -> -149 <= t <= 104 ->
  q * 2 ^ (t + 149) < X <= (q + 1) * 2 ^ (t + 149) ->
  faithful X ((q + 1) * 2 ^ (t + 149)).
Proof.
  intros Hq Ht HX c C. pose proof (canonical_gap q t c Hq Ht C). split; lia.
Qed.

Lemma digits_eq (p : positive) (n : Z) :
  0 < n -> 2 ^ (n - 1) <= Z.pos p < 2 ^ n -> digits p = n.
Proof.
  intros Hn [Lo Hi]. pose proof (digits_le p n ltac:(lia) Hi).
  pose proof (digits_spec p) as [_ U]. pose proof (digits_pos p).
  destruct (Z_lt_le_dec (digits p) n) as [L | G]; [ | lia].
  pose proof (Z.pow_le_mono_r 2 (digits p) (n - 1) ltac:(lia) ltac:(lia)). lia.
Qed.

(** A mantissa of at most 24 digits is only re-aligned. *)
Lemma binary_round_short (s : bool) (M : positive) (e : Z) :
  -149 <= e <= 104 -> digits M <= 24 ->
  binary_round 24 128 s M e
  = S754_finite s (shl (Z.to_nat (e - Z.max (digits M + e - 24) (-149))) M)
                (Z.max (digits M + e - 24) (-149)).
Proof.
  intros He Hd. unfold binary_round. fold (digits M). rewrite fexp_24.
  set (t := Z.max (digits M + e - 24) (-149)).
  assert (Ht : -149 <= t <= e) by (unfold t; lia).
  rewrite shl_align_down by lia.
  assert (S : Z.max (digits (shl (Z.to_nat (e - t)) M) + t - 24) (-149) <= t).
  { rewrite digits_shl, Z2Nat.id by lia. unfold t. lia. }
  rewrite binary_round_aux_finish, shr_fexp_still by exact S.
  cbn [fst snd shr_m loc_of_shr_record round_nearest_even].
  rewrite round_finish_still by exact S.
  replace (t <=? 104) with true by (symmetry; apply Z.leb_le; lia).
  reflexivity.
Qed.

(** A longer mantissa loses its [k] low bits: the quotient is kept or
    incremented, and incremented only when the lost bits are not all zero. *)
Lemma binary_round_long (s : bool) (M : positive) (e : Z) :
  -149 <= e -> 24 < digits M ->
  exists m : Z,
    (m = Z.pos M / 2 ^ (digits M - 24) \/
     (m = Z.pos M / 2 ^ (digits M - 24) + 1 /\ Z.pos M mod 2 ^ (digits M - 24) <> 0)) /\
    binary_round 24 128 s M e = round_finish s m (e + (digits M - 24)).
Proof.
  intros He Hd. unfold binary_round. fold (digits M). rewrite fexp_24.
  rewrite shl_align_up by lia.
  rewrite binary_round_aux_finish.
  unfold shr_fexp. cbn [Zdigits2 shr_record_of_loc]. fold (digits M). rewrite fexp_24.
  replace (Z.max (digits M + e - 24) (-149) - e) with (digits M - 24) by lia.
  destruct (digits M - 24) as [ | p | p] eqn:K; try lia.
  cbn [shr fst snd]. rewrite iter_pos_nat.
  destruct (iter_shr_1_spec (Pos.to_nat p) (Z.pos M) ltac:(lia)) as [Em Ex].
  rewrite positive_nat_Z in Em, Ex.
  pose proof (round_nearest_even_spec
                (Nat.iter (Pos.to_nat p) shr_1 (Build_shr_record (Z.pos M) false false))) as R.
  cbn zeta in R. rewrite Em in R. rewrite Em.
  eexists. split; [ | reflexivity].
  destruct R as [R | [R I]]; [left; exact R | right; split; [exact R | ]].
  intros Z0. apply Ex in Z0. rewrite Z0 in I. discriminate I.
Qed.

Lemma round_finish_normal (s : bool) (m t : Z) :
  2 ^ 23 <= m < 2 ^ 24 -> -149 <= t ->
  round_finish s m t
  = if t <=? 104 then S754_finite s (Z.to_pos m) t else S754_infinity s.
Proof.
  intros Hm Ht. rewrite <- (Z2Pos.id m) at 1 by lia.
  apply round_finish_still.
  rewrite (digits_eq (Z.to_pos m) 24) by (rewrite ?Z2Pos.id; lia). lia.
Qed.

Lemma binary_round_magnitude (s : bool) (M : positive) (e : Z) :
  -149 <= e <= 104 ->
  exists R : Z,
    canonical (binary_round 24 128 s M e) /\
    exact_value (binary_round 24 128 s M e) = cond_Zopp s R /\
    faithful (Z.pos M * 2 ^ (e + 149)) R.
Proof.
  intros He. pose proof (digits_spec M) as DS. pose proof (digits_pos M) as DP.
  destruct (Z_le_gt_dec (digits M) 24) as [Short | Long].
  - rewrite binary_round_short by lia.
    set (t := Z.max (digits M + e - 24) (-149)).
    assert (Ht : -149 <= t <= e) by (unfold t; lia).
    exists (Z.pos M * 2 ^ (e + 149)).
    assert (V : Z.pos (shl (Z.to_nat (e - t)) M) = Z.pos M * 2 ^ (e - t)).
    { rewrite Zpos_shl, Z2Nat.id by lia. reflexivity. }
    assert (D : digits (shl (Z.to_nat (e - t)) M) = digits M + (e - t)).
    { rewrite digits_shl, Z2Nat.id by lia. reflexivity. }
    pose proof (digits_spec (shl (Z.to_nat (e - t)) M)) as DS'. rewrite D in DS'.
    split; [ | split].
    + cbn [canonical]. split; [ | split; [lia | ]].
      * assert (2 ^ (digits M + (e - t)) <= 2 ^ 24) by (apply Z.pow_le_mono_r; unfold t; lia).
        lia.
      * intros N. replace (digits M + (e - t) - 1) with 23 in DS' by (unfold t in *; lia). lia.
    + cbn [exact_value]. f_equal. rewrite V, <- Z.mul_assoc, <- Z.pow_add_r by lia.
      do 2 f_equal. lia.
    + apply faithful_exact.
  - destruct (binary_round_long s M e ltac:(lia) ltac:(lia)) as [m [Hm E]].
    rewrite E. clear E.
    set (k := digits M - 24) in *. set (t := e + k).
    assert (Hk : 0 < k) by (unfold k; lia).
    assert (K : 0 < 2 ^ k) by (apply Z.pow_pos_nonneg; lia).
    assert (P : 2 ^ (t + 149) = 2 ^ k * 2 ^ (e + 149)).
    { unfold t. rewrite <- Z.pow_add_r by lia. f_equal. lia. }
    assert (E149 : 0 < 2 ^ (e + 149)) by (apply Z.pow_pos_nonneg; lia).
    replace (digits M - 1) with (23 + k) in DS by (unfold k; lia).
    replace (digits M) with (24 + k) in DS by (unfold k; lia).
    rewrite !Z.pow_add_r in DS by lia.
    pose proof (Z.div_mod (Z.pos M) (2 ^ k) ltac:(lia)) as DM.
    pose proof (Z.mod_pos_bound (Z.pos M) (2 ^ k) K) as MB.
    set (q := Z.pos M / 2 ^ k) in *. set (rem := Z.pos M mod 2 ^ k) in *.
    assert (Hq : 2 ^ 23 <= q < 2 ^ 24) by nia.
    assert (XL : q * 2 ^ (t + 149) <= Z.pos M * 2 ^ (e + 149)) by (rewrite P; nia).
    assert (XU : Z.pos M * 2 ^ (e + 149) < (q + 1) * 2 ^ (t + 149)) by (rewrite P; nia).
    assert (Top : 104 < t -> 2 ^ 277 <= Z.pos M * 2 ^ (e + 149)).
    { intros G. assert (2 ^ 254 <= 2 ^ (t + 149)) by (apply Z.pow_le_mono_r; lia).
      change (2 ^ 277) with (2 ^ 23 * 2 ^ 254). nia. }
    assert (Normal : forall m', 2 ^ 23 <= m' < 2 ^ 24 ->
              (m' = q \/ (m' = q + 1 /\ rem <> 0)) ->
              exists R : Z,
                canonical (round_finish s m' t) /\
                exact_value (round_finish s m' t) = cond_Zopp s R /\
                faithful (Z.pos M * 2 ^ (e + 149)) R).
    { intros m' B C. rewrite round_finish_normal by lia.
      destruct (Z.leb_spec t 104) as [Le | Gt].
      - exists (m' * 2 ^ (t + 149)). split; [ | split].
        + cbn [canonical]. rewrite Z2Pos.id by lia. lia.
        + cbn [exact_value]. rewrite Z2Pos.id by lia. reflexivity.
        + destruct C as [C | [C Hrem]]; subst m'.
          * apply faithful_down; lia.
          * assert (q * 2 ^ (t + 149) <> Z.pos M * 2 ^ (e + 149)) by (rewrite P; nia).
            apply faithful_up; lia.
      - exists (2 ^ 277). split; [exact Logic.I | split; [reflexivity | ]].
        apply faithful_top, Top. lia. }
    destruct Hm as [Hm | [Hm Hrem]].
    + apply Normal; [lia | left; exact Hm].
    + destruct (Z_lt_le_dec m (2 ^ 24)) as [Lt | Ge].
      * apply Normal; [lia | right; split; assumption].
      * assert (E24 : m = 2 ^ 24) by lia. rewrite E24.
        rewrite round_finish_carry by lia.
        assert (NE : q * 2 ^ (t + 149) <> Z.pos M * 2 ^ (e + 149)) by (rewrite P; nia).
        destruct (Z.leb_spec (t + 1) 104) as [Le | Gt].
        -- exists ((q + 1) * 2 ^ (t + 149)). split; [ | split].
           ++ cbn [canonical]. change (Z.pos (2 ^ 23)) with (2 ^ 23). lia.
           ++ cbn [exact_value]. f_equal. change (Z.pos (2 ^ 23)) with (2 ^ 23).
              replace (t + 1 + 149) with (Z.succ (t + 149)) by lia.
              rewrite Z.pow_succ_r by lia. lia.
           ++ apply faithful_up; lia.
        -- destruct (Z.eq_dec t 104) as [T | T].
           ++ exists ((q + 1) * 2 ^ (t + 149)). split; [exact Logic.I | split].
              ** cbn [exact_value]. f_equal. rewrite T. replace (q + 1) with (2 ^ 24) by lia.
                 reflexivity.
              ** apply faithful_up; lia.
           ++ exists (2 ^ 277). split; [exact Logic.I | split; [reflexivity | ]].
              apply faithful_top, Top. lia.
Qed.

(** [binary_round] returns a canonical value, and no canonical value lies
    strictly between the exact argument and the result. *)
Lemma binary_round_faithful (s : bool) (M : positive) (e : Z) :
  -149 <= e <= 104 ->
  canonical (binary_round 24 128 s M e) /\
  faithful (cond_Zopp s (Z.pos M * 2 ^ (e + 149)))
           (exact_value (binary_round 24 128 s M e)).
Proof.
  intros He. destruct (binary_round_magnitude s M e He) as [R [C [E F]]].
  split; [exact C | ]. rewrite E.
  destruct s; cbn [cond_Zopp]; [apply faithful_opp | ]; exact F.
Qed.

(** ** Sums and differences of finite values *)

Lemma aligned_exact (s : bool) (m : positive) (ex ez : Z) :
  -149 <= ez <= ex ->
  cond_Zopp s (Z.pos (fst (shl_align m ex ez))) * 2 ^ (ez + 149)
  = cond_Zopp s (Z.pos m * 2 ^ (ex + 149)).
Proof.
  intros H. rewrite shl_align_down by lia. cbn [fst].
  rewrite Zpos_shl, Z2Nat.id by lia.
  replace (ex + 149) with ((ex - ez) + (ez + 149)) by lia.
  rewrite (Z.pow_add_r 2 (ex - ez) (ez + 149)) by lia.
  destruct s; cbn [cond_Zopp]; lia.
Qed.

Lemma binary_normalize_faithful (z e : Z) :
  -149 <= e <= 104 ->
  canonical (binary_normalize 24 128 z e false) /\
  faithful (z * 2 ^ (e + 149)) (exact_value (binary_normalize 24 128 z e false)).
Proof.
  intros He. destruct z as [ | M | M]; cbn [binary_normalize].
  - split; [exact I | ]. cbn [exact_value]. rewrite Z.mul_0_l. apply faithful_exact.
  - apply (binary_round_faithful false M e He).
  - pose proof (binary_round_faithful true M e He) as H. cbn [cond_Zopp] in H.
    rewrite <- Pos2Z.opp_pos, Z.mul_opp_l. exact H.
Qed.

(** The computed sum and difference of finite values are faithful
    roundings of the exact ones. *)
Lemma SFadd_faithful (x y : spec_float) :
  canonical x -> canonical y -> finite_value x -> finite_value y ->
  canonical (SFadd 24 128 x y) /\
  faithful (exact_value x + exact_value y) (exact_value (SFadd 24 128 x y)).
Proof.
  destruct x as [sx | sx | | sx mx ex]; destruct y as [sy | sy | | sy my ey];
    cbn [finite_value]; intros Cx Cy Fx Fy; try contradiction.
  - cbn [SFadd]. split; [destruct sx, sy; exact I | ].
    replace (exact_value (if sx then if sy then S754_zero sx else S754_zero false
                          else if sy then S754_zero false else S754_zero sx)) with 0
      by (destruct sx, sy; reflexivity).
    cbn [exact_value]. apply faithful_exact.
  - cbn [SFadd]. split; [exact Cy | ]. cbn [exact_value]. rewrite Z.add_0_l. apply faithful_exact.
  - cbn [SFadd]. split; [exact Cx | ]. cbn [exact_value]. rewrite Z.add_0_r. apply faithful_exact.
  - cbn [canonical] in Cx, Cy. cbn [SFadd exact_value].
    rewrite <- (aligned_exact sx mx ex (Z.min ex ey)) by lia.
    rewrite <- (aligned_exact sy my ey (Z.min ex ey)) by lia.
    rewrite <- Z.mul_add_distr_r.
    apply binary_normalize_faithful. lia.
Qed.

Lemma SFsub_faithful (x y : spec_float) :
  canonical x -> canonical y -> finite_value x -> finite_value y ->
  canonical (SFsub 24 128 x y) /\
  faithful (exact_value x - exact_value y) (exact_value (SFsub 24 128 x y)).
Proof.
  destruct x as [sx | sx | | sx mx ex]; destruct y as [sy | sy | | sy my ey];
    cbn [finite_value]; intros Cx Cy Fx Fy; try contradiction.
  - cbn [SFsub]. split; [destruct sx, sy; exact I | ].
    replace (exact_value (if sx then if sy then S754_zero false else S754_zero sx
                          else if sy then S754_zero sx else S754_zero false)) with 0
      by (destruct sx, sy; reflexivity).
    cbn [exact_value]. apply faithful_exact.
  - cbn [SFsub]. split; [exact Cy | ]. cbn [exact_value].
    replace (0 - cond_Zopp sy (Z.pos my * 2 ^ (ey + 149)))
      with (cond_Zopp (negb sy) (Z.pos my * 2 ^ (ey + 149)))
      by (destruct sy; cbn [cond_Zopp negb]; lia).
    apply faithful_exact.
  - cbn [SFsub]. split; [exact Cx | ]. cbn [exact_value]. rewrite Z.sub_0_r. apply faithful_exact.
  - cbn [canonical] in Cx, Cy. cbn [SFsub exact_value].
    rewrite <- (aligned_exact sx mx ex (Z.min ex ey)) by lia.
    rewrite <- (aligned_exact sy my ey (Z.min ex ey)) by lia.
    rewrite <- Z.mul_sub_distr_r.
    apply binary_normalize_faithful. lia.
Qed.

(** ** approxf on finite floats *)

Lemma is_finite_value (a : F32.float) :
  F32.is_finite a = true -> canonical (F32.value a) /\ finite_value (F32.value a).
Proof.
  intros F. split.
  - apply value_canonical. unfold F32.is_finite in F. unfold F32.is_nan.
    destruct (F32.value a); [reflexivity | reflexivity | discriminate F | reflexivity].
  - unfold F32.is_finite in F. destruct (F32.value a); [exact I | discriminate F | discriminate F | exact I].
Qed.

Lemma add_faithful (b eps : F32.float) :
  F32.is_finite b = true -> F32.is_finite eps = true ->
  canonical (F32.value (F32.add b eps)) /\
  faithful (units b + units eps) (units (F32.add b eps)).
Proof.
  intros Fb Fe. destruct (is_finite_value b Fb) as [Cb Vb].
  destruct (is_finite_value eps Fe) as [Ce Ve].
  destruct (SFadd_faithful _ _ Cb Ce Vb Ve) as [C F].
  unfold units, F32.add. fold F32.prec F32.emax in C, F.
  rewrite value_round_canonical by exact C. split; assumption.
Qed.

Lemma sub_faithful (b eps : F32.float) :
  F32.is_finite b = true -> F32.is_finite eps = true ->
  canonical (F32.value (F32.sub b eps)) /\
  faithful (units b - units eps) (units (F32.sub b eps)).
Proof.
  intros Fb Fe. destruct (is_finite_value b Fb) as [Cb Vb].
  destruct (is_finite_value eps Fe) as [Ce Ve].
  destruct (SFsub_faithful _ _ Cb Ce Vb Ve) as [C F].
  unfold units, F32.sub. fold F32.prec F32.emax in C, F.
  rewrite value_round_canonical by exact C. split; assumption.
Qed.

Lemma ltb_units (x y : F32.float) :
  canonical (F32.value x) -> canonical (F32.value y) ->
  F32.ltb x y = (units x <? units y).
Proof.
  intros Cx Cy. unfold F32.ltb, SFltb, units. rewrite (SFcompare_exact _ _ Cx Cy).
  unfold Z.ltb. reflexivity.
Qed.

(** The sum is at least [b], the difference at most [b], when [eps] is
    not negative. *)
Lemma add_not_below (b eps : F32.float) :
  F32.is_finite b = true -> F32.is_finite eps = true -> 0 <= units eps ->
  units b <= units (F32.add b eps).
Proof.
  intros Fb Fe P. destruct (add_faithful b eps Fb Fe) as [_ F].
  destruct (is_finite_value b Fb) as [Cb _].
  apply (F (F32.value b) Cb). unfold units in *. lia.
Qed.

Lemma sub_not_above (b eps : F32.float) :
  F32.is_finite b = true -> F32.is_finite eps = true -> 0 <= units eps ->
  units (F32.sub b eps) <= units b.
Proof.
  intros Fb Fe P. destruct (sub_faithful b eps Fb Fe) as [_ F].
  destruct (is_finite_value b Fb) as [Cb _].
  apply (F (F32.value b) Cb). unfold units in *. lia.
Qed.

(** Outside the real window the test fails. *)
Lemma approxf_outside (a b eps : F32.float) :
  F32.is_finite a = true -> F32.is_finite b = true -> F32.is_finite eps = true ->
  units eps <= Z.abs (units a - units b) -> approxf a b eps = false.
Proof.
  intros Fa Fb Fe H. destruct (is_finite_value a Fa) as [Ca _].
  destruct (add_faithful b eps Fb Fe) as [CA FA].
  destruct (sub_faithful b eps Fb Fe) as [CS FS].
  unfold approxf. rewrite F32_gtb_ltb, !ltb_units by assumption.
  destruct (FA (F32.value a) Ca) as [Up _]. destruct (FS (F32.value a) Ca) as [_ Down].
  fold (units a) in Up, Down.
  apply andb_false_iff.
  destruct (Z_le_gt_dec (units b + units eps) (units a)) as [L | G].
  - right. apply Z.ltb_ge. apply Up. exact L.
  - left. apply Z.ltb_ge. apply Down. lia.
Qed.

Lemma ulp_value_pos (x : spec_float) : canonical x -> 0 < ulp_value x.
Proof.
  destruct x as [s | s | | s m e]; cbn [canonical ulp_value]; intros C;
    [lia | lia | contradiction | apply Z.pow_pos_nonneg; lia].
Qed.

(** One unit in the last place above a finite value there is a canonical
    value again (the infinity, above the largest finite one). *)
Lemma next_canonical (x : spec_float) :
  canonical x -> finite_value x ->
  exists c, canonical c /\ exact_value c = exact_value x + ulp_value x.
Proof.
  destruct x as [s | s | | s m e]; cbn [canonical finite_value]; intros C F; try contradiction.
  - exists (S754_finite false 1 (-149)). split; [cbn [canonical]; lia | reflexivity].
  - destruct C as [Hm [He Hn]]. cbn [exact_value ulp_value].
    assert (P : 0 < 2 ^ (e + 149)) by (apply Z.pow_pos_nonneg; lia).
    destruct s; cbn [cond_Zopp].
    + destruct (Z.eq_dec (Z.pos m) 1) as [One | More].
      * exists (S754_zero false). split; [exact I | ]. cbn [exact_value]. rewrite One. lia.
      * destruct (Z_le_gt_dec e (-149)) as [Sub | Nor].
        { exists (S754_finite true (Z.to_pos (Z.pos m - 1)) e). split.
          - cbn [canonical]. rewrite Z2Pos.id by lia. lia.
          - cbn [exact_value cond_Zopp]. rewrite Z2Pos.id by lia. lia. }
        destruct (Z.eq_dec (Z.pos m) (2 ^ 23)) as [Low | High].
        { exists (S754_finite true (Z.to_pos (2 ^ 24 - 2)) (e - 1)). split.
          - cbn [canonical]. rewrite Z2Pos.id by lia. lia.
          - cbn [exact_value cond_Zopp]. rewrite Z2Pos.id by lia. rewrite Low.
            replace (e + 149) with (Z.succ (e - 1 + 149)) by lia.
            rewrite Z.pow_succ_r by lia. lia. }
        exists (S754_finite true (Z.to_pos (Z.pos m - 1)) e). split.
        { cbn [canonical]. rewrite Z2Pos.id by lia. lia. }
        cbn [exact_value cond_Zopp]. rewrite Z2Pos.id by lia. lia.
    + destruct (Z_lt_le_dec (Z.pos m + 1) (2 ^ 24)) as [In | Carry].
      * exists (S754_finite false (Z.to_pos (Z.pos m + 1)) e). split.
        { cbn [canonical]. rewrite Z2Pos.id by lia. lia. }
        cbn [exact_value cond_Zopp]. rewrite Z2Pos.id by lia. lia.
      * destruct (Z_lt_le_dec e 104) as [Lt | Top].
        { exists (S754_finite false (Z.to_pos (2 ^ 23)) (e + 1)). split.
          - cbn [canonical]. rewrite Z2Pos.id by lia. lia.
          - cbn [exact_value cond_Zopp]. rewrite Z2Pos.id by lia.
            replace (e + 1 + 149) with (Z.succ (e + 149)) by lia.
            rewrite Z.pow_succ_r by lia.
            replace (Z.pos m) with (2 ^ 24 - 1) by lia. lia. }
        exists (S754_infinity false). split; [exact I | ].
        cbn [exact_value cond_Zopp]. replace e with 104 by lia.
        replace (Z.pos m) with (2 ^ 24 - 1) by lia. reflexivity.
Qed.

Lemma ulp_value_opp (x : spec_float) : ulp_value (SFopp x) = ulp_value x.
Proof. destruct x; reflexivity. Qed.

Lemma finite_value_opp (x : spec_float) : finite_value x -> finite_value (SFopp x).
Proof. destruct x; cbn [finite_value SFopp]; tauto. Qed.

Lemma previous_canonical (x : spec_float) :
  canonical x -> finite_value x ->
  exists c, canonical c /\ exact_value c = exact_value x - ulp_value x.
Proof.
  intros C F.
  destruct (next_canonical (SFopp x) (canonical_opp x C) (finite_value_opp x F)) as [c [Cc E]].
  exists (SFopp c). split; [apply canonical_opp; exact Cc | ].
  rewrite exact_value_opp, E, exact_value_opp, ulp_value_opp. lia.
Qed.

(** Reflexivity needs a tolerance of at least one unit in the last place. *)
Lemma approxf_same (f eps : F32.float) :
  F32.is_finite f = true -> F32.is_finite eps = true ->
  ulp_units f <= units eps -> approxf f f eps = true.
Proof.
  intros Ff Fe H. destruct (is_finite_value f Ff) as [Cf Vf].
  destruct (add_faithful f eps Ff Fe) as [CA FA].
  destruct (sub_faithful f eps Ff Fe) as [CS FS].
  pose proof (ulp_value_pos _ Cf) as U. fold (ulp_units f) in U.
  destruct (next_canonical _ Cf Vf) as [n [Cn En]].
  destruct (previous_canonical _ Cf Vf) as [p [Cp Ep]].
  fold (units f) in En, Ep. fold (ulp_units f) in En, Ep.
  unfold approxf. rewrite F32_gtb_ltb, !ltb_units by assumption.
  apply andb_true_iff. split; apply Z.ltb_lt.
  - destruct (FS p Cp) as [Up _]. lia.
  - destruct (FA n Cn) as [_ Down]. lia.
Qed.

(** With a positive tolerance the test holds for [f] against itself
    exactly when neither bound rounds back to [f]. *)
Lemma approxf_same_iff (f eps : F32.float) :
  F32.is_finite f = true -> F32.is_finite eps = true -> 0 < units eps ->
  (approxf f f eps = true <->
   units (F32.sub f eps) <> units f /\ units (F32.add f eps) <> units f).
Proof.
  intros Ff Fe P. destruct (is_finite_value f Ff) as [Cf Vf].
  destruct (add_faithful f eps Ff Fe) as [CA _].
  destruct (sub_faithful f eps Ff Fe) as [CS _].
  pose proof (add_not_below f eps Ff Fe ltac:(lia)).
  pose proof (sub_not_above f eps Ff Fe ltac:(lia)).
  unfold approxf. rewrite F32_gtb_ltb, !ltb_units by assumption.
  rewrite andb_true_iff, !Z.ltb_lt. lia.
Qed.

Lemma SFltb_above_all (y : spec_float) : SFltb (S754_infinity false) y = false.
Proof. destruct y as [s | s | | s m e]; try destruct s; reflexivity. Qed.

Lemma SFgtb_below_all (y : spec_float) : F32.SFgtb (S754_infinity true) y = false.
Proof. destruct y as [s | s | | s m e]; try destruct s; reflexivity. Qed.

Lemma SFgtb_top (x : spec_float) : F32.SFgtb x (S754_infinity false) = false.
Proof. destruct x as [s | s | | s m e]; try destruct s; reflexivity. Qed.

Lemma SFltb_bottom (x : spec_float) : SFltb x (S754_infinity true) = false.
Proof. destruct x as [s | s | | s m e]; try destruct s; reflexivity. Qed.

Lemma SFgtb_nan_r (x : spec_float) : F32.SFgtb x S754_nan = false.
Proof. destruct x; reflexivity. Qed.

(** Against an infinite or NaN argument the test fails, whatever the
    tolerance. *)
Lemma approxf_not_finite (a b eps : F32.float) :
  F32.is_finite a = false \/ F32.is_finite b = false -> approxf a b eps = false.
Proof.
  unfold approxf, F32.gtb, F32.ltb, F32.is_finite. intros [N | N].
  - destruct (F32.value a) as [s | s | | s m e]; try discriminate N.
    + destruct s.
      * rewrite SFgtb_below_all. reflexivity.
      * rewrite SFltb_above_all. apply andb_false_r.
    + reflexivity.
  - unfold F32.sub, F32.add.
    destruct (F32.value b) as [s | s | | s m e]; try discriminate N.
    + destruct s.
      * replace (F32.value (F32.round (SFadd F32.prec F32.emax (S754_infinity true) (F32.value eps))))
          with (SFadd F32.prec F32.emax (S754_infinity true) (F32.value eps))
          by (destruct (F32.value eps) as [s | s | | s m e]; try destruct s; reflexivity).
        replace (SFltb (F32.value a) (SFadd F32.prec F32.emax (S754_infinity true) (F32.value eps)))
          with false; [apply andb_false_r | ].
        destruct (F32.value eps) as [s | s | | s m e]; try destruct s; cbn [SFadd];
          rewrite ?SFltb_bottom; try reflexivity;
          destruct (F32.value a); reflexivity.
      * replace (F32.value (F32.round (SFsub F32.prec F32.emax (S754_infinity false) (F32.value eps))))
          with (SFsub F32.prec F32.emax (S754_infinity false) (F32.value eps))
          by (destruct (F32.value eps) as [s | s | | s m e]; try destruct s; reflexivity).
        replace (F32.SFgtb (F32.value a) (SFsub F32.prec F32.emax (S754_infinity false) (F32.value eps)))
          with false; [reflexivity | ].
        destruct (F32.value eps) as [s | s | | s m e]; try destruct s; cbn [SFsub];
          rewrite ?SFgtb_top, ?SFgtb_nan_r; reflexivity.
    + replace (F32.value (F32.round (SFsub F32.prec F32.emax S754_nan (F32.value eps))))
        with S754_nan by reflexivity.
      rewrite SFgtb_nan_r. reflexivity.
Qed.

(** A NaN or negative infinite tolerance fails every test. *)
Lemma approxf_bad_epsilon (a b eps : F32.float) :
  F32.is_finite eps = false -> F32.value eps <> S754_infinity false ->
  approxf a b eps = false.
Proof.
  unfold approxf, F32.gtb, F32.ltb, F32.is_finite, F32.sub. intros N P.
  destruct (F32.value eps) as [s | s | | s m e]; try discriminate N.
  - destruct s; [ | contradiction P; reflexivity].
    replace (F32.value (F32.round (SFsub F32.prec F32.emax (F32.value b) (S754_infinity true))))
      with (SFsub F32.prec F32.emax (F32.value b) (S754_infinity true))
      by (destruct (F32.value b) as [s | s | | s m e]; try destruct s; reflexivity).
    replace (F32.SFgtb (F32.value a) (SFsub F32.prec F32.emax (F32.value b) (S754_infinity true)))
      with false; [reflexivity | ].
    destruct (F32.value b) as [s | s | | s m e]; try destruct s; cbn [SFsub negb];
      rewrite ?SFgtb_top, ?SFgtb_nan_r; reflexivity.
  - replace (F32.value (F32.round (SFsub F32.prec F32.emax (F32.value b) S754_nan)))
      with S754_nan by (destruct (F32.value b); reflexivity).
    rewrite SFgtb_nan_r. reflexivity.
Qed.

(** A positive infinite tolerance accepts every pair of finite floats. *)
Lemma approxf_infinite_epsilon (a b eps : F32.float) :
  F32.is_finite a = true -> F32.is_finite b = true ->
  F32.value eps = S754_infinity false -> approxf a b eps = true.
Proof.
  unfold approxf, F32.gtb, F32.ltb, F32.is_finite, F32.sub, F32.add. intros Fa Fb E.
  rewrite E.
  destruct (F32.value b) as [sb | sb | | sb mb eb]; try discriminate Fb;
    destruct (F32.value a) as [sa | sa | | sa ma ea]; try discriminate Fa; reflexivity.
Qed.

Example units_samples :
  units F32.one = 2 ^ 149 /\
  units (F32.of_int 3) = 3 * 2 ^ 149 /\
  units (F32.of_int (-3)) = - 3 * 2 ^ 149 /\
  units F32.half = 2 ^ 148 /\
  units (F32.of_bits 1) = 1 /\
  units (F32.of_bits 0x7F7FFFFF) = (2 ^ 24 - 1) * 2 ^ 253 /\
  ulp_units F32.one = 2 ^ 126 /\
  ulp_units (F32.of_int (2 ^ 25)) = 4 * 2 ^ 149 /\
  ulp_units F32.zero = 1.
Proof. repeat split; vm_compute; reflexivity. Qed.

(** C6 (as amended): [approxf a b eps] holds exactly when [a] lies strictly
    between the rounded [b - eps] and the rounded [b + eps], and the two
    rounded bounds themselves compare not-equal.  With the floats read as
    the numbers they denote: [approxf a b eps] is false whenever [a], [b]
    and [eps] are finite and [|a - b| >= eps]; it is false whenever [a] or
    [b] is infinite or NaN, and whenever [eps] is NaN or the negative
    infinity; it is true for finite [a] and [b] when [eps] is the positive
    infinity.  [approxf f f eps] is true for finite [f] and [eps] whenever
    [eps] is at least one unit in the last place of [f], and for any finite
    [eps > 0] exactly when neither [f - eps] nor [f + eps] rounds back to
    [f]. *)
Theorem approxf_window_and_tolerance (a b eps : F32.float) :
  (approxf a b eps = true <->
     F32.ltb (F32.sub b eps) a = true /\ F32.ltb a (F32.add b eps) = true) /\
  approxf (F32.sub b eps) b eps = false /\
  approxf (F32.add b eps) b eps = false /\
  (F32.is_finite a = true -> F32.is_finite b = true -> F32.is_finite eps = true ->
     units eps <= Z.abs (units a - units b) -> approxf a b eps = false) /\
  (F32.is_finite a = false \/ F32.is_finite b = false -> approxf a b eps = false) /\
  (F32.is_finite eps = false -> F32.value eps <> S754_infinity false ->
     approxf a b eps = false) /\
  (F32.is_finite a = true -> F32.is_finite b = true ->
     F32.value eps = S754_infinity false -> approxf a b eps = true) /\
  (F32.is_finite b = true -> F32.is_finite eps = true ->
     ulp_units b <= units eps -> approxf b b eps = true) /\
  (F32.is_finite b = true -> F32.is_finite eps = true -> 0 < units eps ->
     (approxf b b eps = true <->
        units (F32.sub b eps) <> units b /\ units (F32.add b eps) <> units b)).
Proof.
  destruct (approxf_computed_window a b eps) as [W [L U]].
  split; [exact W | ]. split; [exact L | ]. split; [exact U | ].
  split; [apply approxf_outside | ].
  split; [apply approxf_not_finite | ].
  split; [apply approxf_bad_epsilon | ].
  split; [apply approxf_infinite_epsilon | ].
  split; [apply approxf_same | apply approxf_same_iff].
Qed.

Lemma approxf_window_and_tolerance_witness :
  (F32.is_finite (F32.of_int 3) = true /\
   F32.is_finite F32.one = true /\
   units F32.one <= Z.abs (units (F32.of_int 3) - units F32.one) /\
   approxf (F32.of_int 3) F32.one F32.one = false) /\
  (F32.is_finite (F32.of_bits 0x7F800000) = false /\
   approxf (F32.of_bits 0x7F800000) (F32.of_bits 0x7F800000) F32.one = false) /\
  (F32.is_finite (F32.of_bits 0xFF800000) = false /\
   F32.value (F32.of_bits 0xFF800000) <> S754_infinity false /\
   approxf F32.one F32.one (F32.of_bits 0xFF800000) = false) /\
  (F32.value (F32.of_bits 0x7F800000) = S754_infinity false /\
   approxf (F32.of_int 3) F32.one (F32.of_bits 0x7F800000) = true) /\
  (ulp_units F32.one <= units F32.one /\
   approxf F32.one F32.one F32.one = true) /\
  (0 < units F32.one /\
   units (F32.sub F32.one F32.one) <> units F32.one /\
   units (F32.add F32.one F32.one) <> units F32.one).
Proof.
  assert (H1 : F32.is_finite F32.one = true) by reflexivity.
  assert (H3 : F32.is_finite (F32.of_int 3) = true) by reflexivity.
  assert (D : units F32.one <= Z.abs (units (F32.of_int 3) - units F32.one))
    by (apply Z.leb_le; vm_compute; reflexivity).
  assert (U : ulp_units F32.one <= units F32.one)
    by (apply Z.leb_le; vm_compute; reflexivity).
  assert (P : 0 < units F32.one) by (apply Z.ltb_lt; vm_compute; reflexivity).
  assert (N : F32.is_finite (F32.of_bits 0x7F800000) = false) by reflexivity.
  assert (M : F32.is_finite (F32.of_bits 0xFF800000) = false) by reflexivity.
  assert (M' : F32.value (F32.of_bits 0xFF800000) <> S754_infinity false)
    by (intros E; vm_compute in E; discriminate E).
  assert (T : F32.value (F32.of_bits 0x7F800000) = S754_infinity false) by reflexivity.
  destruct (approxf_window_and_tolerance (F32.of_int 3) F32.one F32.one)
    as [_ [_ [_ [Out [_ [_ [_ [Same Iff]]]]]]]].
  destruct (approxf_window_and_tolerance
              (F32.of_bits 0x7F800000) (F32.of_bits 0x7F800000) F32.one)
    as [_ [_ [_ [_ [Inf _]]]]].
  destruct (approxf_window_and_tolerance F32.one F32.one (F32.of_bits 0xFF800000))
    as [_ [_ [_ [_ [_ [Bad _]]]]]].
  destruct (approxf_window_and_tolerance (F32.of_int 3) F32.one (F32.of_bits 0x7F800000))
    as [_ [_ [_ [_ [_ [_ [Wide _]]]]]]].
  split; [exact (conj H3 (conj H1 (conj D (Out H3 H1 H1 D)))) | ].
  split; [exact (conj N (Inf (or_introl N))) | ].
  split; [exact (conj M (conj M' (Bad M M'))) | ].
  split; [exact (conj T (Wide H3 H1 T)) | ].
  split; [exact (conj U (Same H1 H1 U)) | ].
  exact (conj P (proj1 (Iff H1 H1 P) (Same H1 H1 U))).
Defined.
